(** * Armory SDK manager (armory.py): clone / update / restore workflow

    A shallow embedding of the SDK download logic of the Armory Blender
    add-on: [remove_readonly], [run_proc], [git_clone], [git_test],
    [restore_repo], [get_fp], [get_sdk_path] and [download_sdk] together
    with the closure [done] that counts finished repositories.

    The Python code acts on the operating system.  The part of the
    operating system it touches is made explicit in a [world] record
    (file system, working directory, the three module globals and a
    chronological trace of observable events) and the answers of the
    environment (does a process start, what does [git --version] print)
    are inputs collected in an [environment] record. *)

From Stdlib Require Import ZArith List String Ascii Bool Lia.
From Stdlib Require Strings.Byte.
From stdpp Require Import gmap strings list fin_maps.

Local Open Scope Z_scope.
Local Open Scope string_scope.

(** ** Exceptions and file-system objects *)

Inductive exn :=
| FileNotFoundError
| FileExistsError
| NotADirectoryError
| IsADirectoryError
| PermissionError
| DirectoryNotEmpty
| UnicodeDecodeError.

(** The two families of operating systems Blender runs on.  They differ
    in what a read-only flag forbids, and so in what [remove_readonly]
    can do about it. *)
Inductive platform := Windows | Posix.

(** An object stored under a path: a regular file or a directory with its
    named entries.  Both carry a read-only flag: on Windows the read-only
    attribute, on POSIX the absence of the owner's write permission.
    [os.chmod] with [stat.S_IWRITE] clears it on either platform.  The
    other permission bits are not modelled: every directory can be listed
    and searched by the user, who owns the files and is not the
    superuser. *)
#[local] Unset Elimination Schemes.
Inductive node :=
| File (readonly : bool) (data : string)
| Dir (readonly : bool) (entries : list (string * node)).
#[local] Set Elimination Schemes.

(** Nested induction principle for [node]. *)
Section node_induction.
Variable P : node -> Prop.
Hypothesis P_file : forall ro d, P (File ro d).
Hypothesis P_dir :
  forall ro es, Forall (fun e => P (snd e)) es -> P (Dir ro es).

Fixpoint node_nested_ind (n : node) : P n :=
  match n with
  | File ro d => P_file ro d
  | Dir ro es =>
      P_dir ro es
        ((fix go (l : list (string * node)) : Forall (fun e => P (snd e)) l :=
            match l with
            | [] => List.Forall_nil _
            | (nm, c) :: r =>
                @List.Forall_cons _ (fun e => P (snd e)) (nm, c) r
                  (node_nested_ind c) (go r)
            end) es)
  end.
End node_induction.

(** ** Primitive calls on the object found at one path

    Each call gets the platform, the read-only flag of the directory that
    holds the path, and the object currently stored at the path ([None]
    when nothing is there); it answers with the object left at the path
    and the exception raised, if any.

    On Windows an object whose own read-only attribute is set cannot be
    removed; this is the refusal [remove_readonly] exists for, and
    clearing the attribute lifts it.  On POSIX removing an entry is a
    change of the directory that holds it: it is refused when that
    directory is read-only, whatever the flag of the entry is. *)

Definition outcome : Type := option node * option exn.

Definition refused (pf : platform) (above own : bool) : bool :=
  match pf with
  | Windows => own
  | Posix => above
  end.

Definition os_unlink (pf : platform) (above : bool) (o : option node) : outcome :=
  match o with
  | None => (None, Some FileNotFoundError)
  | Some (File ro _) =>
      if refused pf above ro then (o, Some PermissionError) else (None, None)
  | Some (Dir _ _) => (o, Some IsADirectoryError)
  end.

Definition os_rmdir (pf : platform) (above : bool) (o : option node) : outcome :=
  match o with
  | None => (None, Some FileNotFoundError)
  | Some (File _ _) => (o, Some NotADirectoryError)
  | Some (Dir ro es) =>
      if refused pf above ro then (o, Some PermissionError)
      else match es with
           | _ :: _ => (o, Some DirectoryNotEmpty)
           | [] => (None, None)
           end
  end.

Definition os_scandir (o : option node) : outcome :=
  match o with
  | None => (None, Some FileNotFoundError)
  | Some (File _ _) => (o, Some NotADirectoryError)
  | Some (Dir _ _) => (o, None)
  end.

(** [os.chmod(path, stat.S_IWRITE)] *)
Definition os_chmod_write (o : option node) : outcome :=
  match o with
  | None => (None, Some FileNotFoundError)
  | Some (File _ d) => (Some (File false d), None)
  | Some (Dir _ es) => (Some (Dir false es), None)
  end.

(** The function [shutil.rmtree] hands to its error handler. *)
Inductive func := f_scandir | f_unlink | f_rmdir.

Definition apply_func (pf : platform) (f : func) (above : bool) (o : option node)
  : outcome :=
  match f with
  | f_scandir => os_scandir o
  | f_unlink => os_unlink pf above o
  | f_rmdir => os_rmdir pf above o
  end.

(** An [onerror] handler gets the failed function, the exception and the
    path (here: the platform, the flag of the directory that holds the
    path, and the object at the path). *)
Definition handler : Type :=
  platform -> func -> exn -> bool -> option node -> outcome.

(** [def remove_readonly(func, path, excinfo)]: clear the flag of the
    object at [path], then call [func(path)] again; whatever that second
    call raises propagates. *)
Definition remove_readonly : handler :=
  fun pf f excinfo above o =>
    match os_chmod_write o with
    | (o', Some e) => (o', Some e)
    | (o', None) => apply_func pf f above o'
    end.

(** [shutil.rmtree] without [onerror]: the error is raised again. *)
Definition onerror_raise : handler := fun _ _ excinfo _ o => (o, Some excinfo).

(** ** [shutil.rmtree(path, onerror=...)]

    [try: func(path) except OSError: onerror(func, path, exc_info)] *)
Definition try_func (pf : platform) (onerror : handler)
    (f : func) (above : bool) (o : option node) : outcome :=
  match apply_func pf f above o with
  | (o', None) => (o', None)
  | (o', Some e) => onerror pf f e above o'
  end.

Definition keep (nm : string) (o : option node) (rest : list (string * node))
  : list (string * node) :=
  match o with
  | Some c => (nm, c) :: rest
  | None => rest
  end.

(** The loop of [shutil.rmtree] over the entries of a directory whose
    read-only flag is [above]: directories are removed by the recursive
    call [rm], anything else with [os.unlink].  An exception that leaves
    the handler stops the walk and leaves the rest in place. *)
Definition rmtree_entries (pf : platform) (rm : node -> outcome)
    (onerror : handler) (above : bool)
  : list (string * node) -> list (string * node) * option exn :=
  fix each (l : list (string * node)) :=
    match l with
    | [] => ([], None)
    | (nm, c) :: rest =>
        let r := match c with
                 | Dir _ _ => rm c
                 | File _ _ => try_func pf onerror f_unlink above (Some c)
                 end in
        match r with
        | (o, Some e) => (keep nm o rest, Some e)
        | (o, None) =>
            let '(rest', e) := each rest in (keep nm o rest', e)
        end
    end.

(** The walk of [shutil.rmtree] ([_rmtree_unsafe] on Windows, and the
    same sequence of calls in [_rmtree_safe_fd] on POSIX, where the
    directories are opened before they are listed): list the directory,
    remove every entry, then [os.rmdir] the directory itself, which is an
    entry of the directory above it. *)
Fixpoint rmtree_unsafe (pf : platform) (onerror : handler) (above : bool)
    (n : node) : outcome :=
  match n with
  | File _ _ =>
      match try_func pf onerror f_scandir above (Some n) with
      | (o, Some e) => (o, Some e)
      | (o, None) => try_func pf onerror f_rmdir above o
      end
  | Dir ro es =>
      match rmtree_entries pf (rmtree_unsafe pf onerror ro) onerror ro es with
      | (es', Some e) => (Some (Dir ro es'), Some e)
      | (es', None) => try_func pf onerror f_rmdir above (Some (Dir ro es'))
      end
  end.

(** [shutil.rmtree] on what is at a path the add-on addresses.  The
    directories above the paths the add-on addresses (the SDK directory,
    [lib] in it, and what is above them) are not objects of the model:
    no call fails because of them, and here the directory that holds the
    path lets its entries be removed. *)
Definition rmtree_at (pf : platform) (onerror : handler)
    (o : option node) : outcome :=
  match o with
  | Some n => rmtree_unsafe pf onerror false n
  | None =>
      match try_func pf onerror f_scandir false None with
      | (o', Some e) => (o', Some e)
      | (o', None) => try_func pf onerror f_rmdir false o'
      end
  end.

(** What [shutil.rmtree] with [remove_readonly] removes completely.  On
    Windows: every directory.  On POSIX: a directory in which every
    directory that still holds something is writable. *)
Fixpoint unlinkable (above : bool) (n : node) : bool :=
  negb above
  && match n with
     | File _ _ => true
     | Dir ro es => forallb (fun e => unlinkable ro (snd e)) es
     end.

Definition removable (pf : platform) (n : node) : bool :=
  match n with
  | File _ _ => false
  | Dir _ _ =>
      match pf with
      | Windows => true
      | Posix => unlinkable false n
      end
  end.

(** ** The world the add-on acts on *)

Inductive level := INFO | ERROR.

(** Observable events, recorded in the order in which they happen. *)
Inductive event :=
| EvPrint (line : string)                      (* print(...) *)
| EvReport (l : level) (msg : string)           (* self.report({l}, msg) *)
| EvMakedirs (path : string)
| EvChdir (path : string)
| EvRename (src dst : string)
| EvRmtree (path : string)
| EvProbe                                      (* git --version is run *)
| EvPopen (cmd : list string) (started : bool)  (* subprocess.Popen(cmd) *)
| EvWait (cmd : list string) (exit_code : Z)    (* p.wait() returned *)
| EvCall (error : Z).                           (* done(error) is entered *)

(** The platform the add-on runs on, and the file system, which maps a
    path name to the object stored under it.  The add-on builds every
    path by concatenation from an absolute path and always uses the same
    string for the same object; the working directory does not enter
    into the lookup of a name.  [repos_updated], [repos_total] and
    [repos_done] are the module globals of armory.py. *)
Record world := mkWorld {
  os : platform;
  fs : gmap string node;
  cwd : string;
  repos_updated : Z;
  repos_total : Z;
  repos_done : Z;
  trace : list event
}.

Definition set_fs (f : gmap string node -> gmap string node) (w : world) : world :=
  mkWorld (os w) (f (fs w)) (cwd w) (repos_updated w) (repos_total w) (repos_done w) (trace w).
Definition set_cwd (d : string) (w : world) : world :=
  mkWorld (os w) (fs w) d (repos_updated w) (repos_total w) (repos_done w) (trace w).
Definition set_repos_updated (z : Z) (w : world) : world :=
  mkWorld (os w) (fs w) (cwd w) z (repos_total w) (repos_done w) (trace w).
Definition set_repos_total (z : Z) (w : world) : world :=
  mkWorld (os w) (fs w) (cwd w) (repos_updated w) z (repos_done w) (trace w).
Definition set_repos_done (z : Z) (w : world) : world :=
  mkWorld (os w) (fs w) (cwd w) (repos_updated w) (repos_total w) z (trace w).
Definition log (e : event) (w : world) : world :=
  mkWorld (os w) (fs w) (cwd w) (repos_updated w) (repos_total w) (repos_done w)
          (trace w ++ [e]).

Definition print (line : string) : world -> world := log (EvPrint line).
Definition report (l : level) (msg : string) : world -> world := log (EvReport l msg).

(** ** Computations that may raise *)

Inductive result (A : Type) :=
| Ok (a : A) (w : world)
| Raise (e : exn) (w : world).
Arguments Ok {A} a w.
Arguments Raise {A} e w.

Definition M (A : Type) : Type := world -> result A.

Definition ret {A} (a : A) : M A := fun w => Ok a w.
Definition raise {A} (e : exn) : M A := fun w => Raise e w.
Definition bind {A B} (m : M A) (k : A -> M B) : M B :=
  fun w => match m w with
           | Ok a w' => k a w'
           | Raise e w' => Raise e w'
           end.
(** A statement that cannot raise. *)
Definition act (f : world -> world) : M unit := fun w => Ok tt (f w).

Notation "x <- m ;; k" := (bind m (fun x => k))
  (at level 100, m at next level, right associativity).
Notation "m ;; k" := (bind m (fun _ => k))
  (at level 100, right associativity).

Definition world_of {A} (r : result A) : world :=
  match r with Ok _ w => w | Raise _ w => w end.

(** ** Operating-system calls on the world *)

Definition os_path_exists (path : string) : M bool :=
  fun w => Ok (match fs w !! path with Some _ => true | None => false end) w.

(** [os.rename(src, dst)]: the add-on only renames onto a free name; a
    taken destination is refused. *)
Definition os_rename (src dst : string) : M unit :=
  fun w =>
    match fs w !! src with
    | None => Raise FileNotFoundError w
    | Some n =>
        match fs w !! dst with
        | Some _ => Raise FileExistsError w
        | None => Ok tt (log (EvRename src dst)
                           (set_fs (fun f => <[dst := n]> (delete src f)) w))
        end
    end.

Definition shutil_rmtree (path : string) (onerror : handler) : M unit :=
  fun w =>
    let '(o, e) := rmtree_at (os w) onerror (fs w !! path) in
    let w' := log (EvRmtree path)
                (set_fs (fun f => match o with
                                  | Some n => <[path := n]> f
                                  | None => delete path f
                                  end) w) in
    match e with
    | None => Ok tt w'
    | Some e => Raise e w'
    end.

(** The names above a path: its proper prefixes that end before a
    separator and are followed by a further component, the outermost
    first.  A leading separator alone names the root, and on Windows a
    prefix that ends in a colon names a drive; neither is a directory to
    create. *)
Definition is_sep (pf : platform) (c : ascii) : bool :=
  Ascii.eqb c "/"
  || match pf with
     | Windows => Ascii.eqb c "\"
     | Posix => false
     end.

Definition ends_component (pf : platform) (pre : string) : bool :=
  match rev (list_ascii_of_string pre) with
  | [] => false
  | c :: _ =>
      negb (is_sep pf c)
      && negb match pf with
              | Windows => Ascii.eqb c ":"
              | Posix => false
              end
  end.

Definition has_component (pf : platform) (rest : string) : bool :=
  existsb (fun c => negb (is_sep pf c)) (list_ascii_of_string rest).

Fixpoint ancestors_from (pf : platform) (pre rest : string) : list string :=
  match rest with
  | EmptyString => []
  | String c rest' =>
      (if is_sep pf c && ends_component pf pre && has_component pf rest'
       then [pre] else [])
      ++ ancestors_from pf (pre +:+ String c EmptyString) rest'
  end.

Definition ancestors (pf : platform) (path : string) : list string :=
  ancestors_from pf EmptyString path.

(** The recursion of [os.makedirs] over the names above the path, the
    nearest first: [if head and tail and not path.exists(head):
    makedirs(head)]. *)
Fixpoint make_above (nearest_first : list string) (f : gmap string node)
  : gmap string node :=
  match nearest_first with
  | [] => f
  | a :: up =>
      match f !! a with
      | Some _ => f
      | None => <[a := Dir false []]> (make_above up f)
      end
  end.

(** [os.makedirs(path)]: the missing directories above [path] are
    created, then [path] itself. *)
Definition os_makedirs (path : string) : M unit :=
  fun w =>
    match fs w !! path with
    | Some _ => Raise FileExistsError w
    | None =>
        Ok tt (log (EvMakedirs path)
                 (set_fs (fun f => <[path := Dir false []]>
                                     (make_above (rev (ancestors (os w) path)) f))
                    w))
    end.

Definition os_chdir (path : string) : M unit :=
  fun w =>
    match fs w !! path with
    | None => Raise FileNotFoundError w
    | Some (File _ _) => Raise NotADirectoryError w
    | Some (Dir _ _) => Ok tt (log (EvChdir path) (set_cwd path w))
    end.

(** ** The environment: what the outside answers *)

(** A started process: its exit status and what it does to the file
    system while it runs, one write after the other.  The writes happen
    at any time between [Popen] and the return of [p.wait()]. *)
Definition write : Type := gmap string node -> gmap string node.

Record process := mkProcess {
  exit_code : Z;
  proc_writes : list write
}.

Inductive popen_outcome :=
| PopenOSError (errno : option Z) (msg : string)
| PopenException (msg : string)
| PopenOk (p : process).

Inductive probe_outcome :=
| ProbeRaises (msg : string)
| ProbeOutput (output : list Byte.byte).

Record environment := mkEnv {
  git_version : probe_outcome;          (* Popen(['git','--version']) + communicate() *)
  popen : list string -> popen_outcome  (* Popen(cmd) *)
}.

(** ** [run_proc] *)

Definition callback : Type := Z -> world -> world.

(** The waiter thread started by [run_proc]. *)
Record thread := mkThread {
  th_cmd : list string;
  th_proc : process;
  th_done : option callback
}.

(** [if done != None: done(error)] *)
Definition call (done : option callback) (error : Z) (w : world) : world :=
  match done with
  | Some d => d error (log (EvCall error) w)
  | None => w
  end.

(** [def fn(p, done): p.wait(); if done != None: done(0)], from the
    moment [p.wait()] returns: the process has ended and has made all its
    writes. *)
Definition fn (t : thread) (w : world) : world :=
  let p := th_proc t in
  let w := log (EvWait (th_cmd t) (exit_code p)) w in
  call (th_done t) 0 w.

(** All the writes a process still has to make. *)
Definition proc_run (p : process) (f : gmap string node) : gmap string node :=
  fold_left (fun f (wr : write) => wr f) (proc_writes p) f.

(** The process runs to its end, [p.wait()] returns and the waiter
    thread goes on. *)
Definition finish (t : thread) (w : world) : world :=
  fn t (set_fs (proc_run (th_proc t)) w).

Definition newline : string := String (ascii_of_nat 10) EmptyString.

(** [print("Running command:", *cmd, "\n")] *)
Definition running_command (cmd : list string) : string :=
  String.concat " " ("Running command:" :: cmd ++ [newline]).

(** [err.errno == k]; [errno] is [None] when the error carries none. *)
Definition errno_is (errno : option Z) (k : Z) : bool :=
  match errno with
  | Some e => (e =? k)%Z
  | None => false
  end.

(** [run_proc(cmd, done)]: every exception of [Popen] is caught; the result
    is the waiter thread when one was started. *)
Definition run_proc (env : environment) (cmd : list string)
    (done : option callback) (w : world) : world * option thread :=
  match popen env cmd with
  | PopenOSError errno msg =>
      let w := log (EvPopen cmd false) w in
      let w := call done 1 w in
      let w := print (running_command cmd) w in
      let w :=
        if errno_is errno 12 then
          print "Make sure there is enough space for the SDK (at least 500mb)" w
        else if errno_is errno 13 then
          print "Permission denied, try modifying the permission of the sdk folder" w
        else print ("error: " +:+ msg) w in
      (w, None)
  | PopenException msg =>
      let w := log (EvPopen cmd false) w in
      let w := call done 1 w in
      let w := print (running_command cmd) w in
      let w := print (String.concat " " ["error:"; msg; newline]) w in
      (w, None)
  | PopenOk p =>
      (log (EvPopen cmd true) w, Some (mkThread cmd p done))
  end.

(** ** [git_clone] and [restore_repo] *)

Definition clone_command (path gitn : string) (recursive : bool) : list string :=
  if recursive then
    ["git"; "clone"; "--recursive"; "https://github.com/" +:+ gitn; path;
     "--depth"; "1"; "--shallow-submodules"; "--jobs"; "4"]
  else
    ["git"; "clone"; "https://github.com/" +:+ gitn; path; "--depth"; "1"].

Definition git_clone (env : environment) (done : option callback)
    (p gitn n : string) (recursive : bool) : M (option thread) :=
  let path := p +:+ "/" +:+ n in
  here <- os_path_exists path ;;
  backed <- os_path_exists (path +:+ "_backup") ;;
  (if here && negb backed then os_rename path (path +:+ "_backup") else ret tt) ;;
  still <- os_path_exists path ;;
  (if still then shutil_rmtree path remove_readonly else ret tt) ;;
  fun w => let '(w', t) := run_proc env (clone_command path gitn recursive) done w in
           Ok t w'.

Definition restore_repo (p n : string) : M unit :=
  backed <- os_path_exists (p +:+ "/" +:+ n +:+ "_backup") ;;
  if backed then
    here <- os_path_exists (p +:+ "/" +:+ n) ;;
    (if here then shutil_rmtree (p +:+ "/" +:+ n) remove_readonly else ret tt) ;;
    os_rename (p +:+ "/" +:+ n +:+ "_backup") (p +:+ "/" +:+ n)
  else ret tt.

(** ** [git_test] *)

(** [bytes.decode('utf-8')]: strict UTF-8, the result is the sequence of
    code points; [None] stands for [UnicodeDecodeError]. *)
Definition continuation (b : N) : bool := ((128 <=? b) && (b <=? 191))%N.

Fixpoint utf8_decode (bs : list N) : option (list N) :=
  match bs with
  | [] => Some []
  | b0 :: r0 =>
      if (b0 <? 128)%N then option_map (cons b0) (utf8_decode r0)
      else if ((194 <=? b0) && (b0 <=? 223))%N then
        match r0 with
        | b1 :: r1 =>
            if continuation b1
            then option_map (cons ((b0 - 192) * 64 + (b1 - 128))%N) (utf8_decode r1)
            else None
        | _ => None
        end
      else if ((224 <=? b0) && (b0 <=? 239))%N then
        match r0 with
        | b1 :: b2 :: r2 =>
            let cp := ((b0 - 224) * 4096 + (b1 - 128) * 64 + (b2 - 128))%N in
            if continuation b1 && continuation b2 && (2048 <=? cp)%N
               && negb ((55296 <=? cp) && (cp <=? 57343))%N
            then option_map (cons cp) (utf8_decode r2)
            else None
        | _ => None
        end
      else if ((240 <=? b0) && (b0 <=? 244))%N then
        match r0 with
        | b1 :: b2 :: b3 :: r3 =>
            let cp := ((b0 - 240) * 262144 + (b1 - 128) * 4096
                       + (b2 - 128) * 64 + (b3 - 128))%N in
            if continuation b1 && continuation b2 && continuation b3
               && (65536 <=? cp)%N && (cp <=? 1114111)%N
            then option_map (cons cp) (utf8_decode r3)
            else None
        | _ => None
        end
      else None
  end.

Definition decode (output : list Byte.byte) : option (list N) :=
  utf8_decode (map Byte.to_N output).

(** The fragment of Python's [re] syntax that the pattern of [git_test]
    uses: a sequence of atoms, each one character class, possibly
    repeated with [+]. *)
Inductive charset :=
| Chr (c : N)          (* a literal character *)
| Dot                  (* .     : any character except a newline *)
| Range (lo hi : N).   (* [a-b] *)

Inductive atom :=
| One (cs : charset)
| OneOrMore (cs : charset).   (* cs+ *)

Definition in_charset (cs : charset) (c : N) : bool :=
  match cs with
  | Chr x => (c =? x)%N
  | Dot => negb (c =? 10)%N
  | Range lo hi => ((lo <=? c) && (c <=? hi))%N
  end.

(** [re.match(pattern, s)] as a truth value: does some prefix of [s]
    match?  [+] is tried longest first and backtracks. *)
Fixpoint re_match (p : list atom) : list N -> bool :=
  match p with
  | [] => fun _ => true
  | One cs :: p' =>
      fun s => match s with
               | c :: s' => in_charset cs c && re_match p' s'
               | [] => false
               end
  | OneOrMore cs :: p' =>
      fix plus (s : list N) : bool :=
        match s with
        | c :: s' => in_charset cs c && (plus s' || re_match p' s')
        | [] => false
        end
  end.

Definition code_points (s : string) : list N :=
  map N_of_ascii (list_ascii_of_string s).

Definition digit : charset := Range 48 57.   (* [0-9] *)

(** ["git version [0-9]+.[0-9]+.[0-9]+"] *)
Definition git_version_re : list atom :=
  map (fun c => One (Chr c)) (code_points "git version ")
  ++ [OneOrMore digit; One Dot; OneOrMore digit; One Dot; OneOrMore digit].

(** The [else] clause of the [try] statement is outside the guarded
    region, so a failing [decode] is not caught. *)
Definition git_test (env : environment) : M bool :=
  act (print "Testing if git is working...") ;;
  act (log EvProbe) ;;
  match git_version env with
  | ProbeRaises msg => act (print msg) ;; ret false
  | ProbeOutput output =>
      match decode output with
      | None => raise UnicodeDecodeError
      | Some s =>
          if re_match git_version_re s
          then act (print "Test succeeded.") ;; ret true
          else ret false
      end
  end.

(** ** [get_fp] and [get_sdk_path] *)

(** What the add-on reads from Blender: [bpy.data.filepath], the
    [sdk_path] preference, and [os.path.sep] of the platform. *)
Record context := mkContext {
  filepath : string;
  sdk_path_pref : string;
  os_path_sep : ascii
}.

(** [str.split(sep)] for a one-character separator. *)
Fixpoint split (sep : ascii) (s : string) : list string :=
  match s with
  | EmptyString => [EmptyString]
  | String c s' =>
      if Ascii.eqb c sep then EmptyString :: split sep s'
      else match split sep s' with
           | h :: t => String c h :: t
           | [] => [String c EmptyString]
           end
  end.

Definition get_fp (ctx : context) : string :=
  if String.eqb (filepath ctx) EmptyString then EmptyString
  else
    let s := split (os_path_sep ctx) (filepath ctx) in
    let s := removelast s in   (* s.pop() *)
    String.concat (String (os_path_sep ctx) EmptyString) s.

Definition get_sdk_path (ctx : context) : M string :=
  local <- os_path_exists (get_fp ctx +:+ "/armsdk") ;;
  if local then ret (get_fp ctx +:+ "/armsdk") else ret (sdk_path_pref ctx).

(** ** [download_sdk] *)

Inductive status := FINISHED | CANCELLED.

Definition succeeded_message : string :=
  "Armory SDK download completed, please restart Blender..".
Definition failed_message : string :=
  "Failed downloading Armory SDK, check console for details.".
Definition git_failed_message : string :=
  "Git test failed. Make sure git is installed (https://git-scm.com/downloads) or is working correctly.".

(** The closure [done] of [download_sdk]. *)
Definition done : callback := fun (error : Z) (w : world) =>
  let w := set_repos_done (repos_done w + 1) w in
  let w := if (error =? 0)%Z then set_repos_updated (repos_updated w + 1) w else w in
  if (repos_updated w =? repos_total w)%Z then print succeeded_message w
  else if (repos_done w =? repos_total w)%Z then report ERROR failed_message w
  else w.

Record repo := mkRepo { gitn : string; n : string; recursive : bool }.

(** The nine [git_clone] calls of [download_sdk], in order. *)
Definition repos : list repo :=
  [ mkRepo "armory3d/armory" "armory" false;
    mkRepo "armory3d/iron" "iron" false;
    mkRepo "armory3d/haxebullet" "lib/haxebullet" false;
    mkRepo "armory3d/haxerecast" "lib/haxerecast" false;
    mkRepo "armory3d/zui" "lib/zui" false;
    mkRepo "armory3d/armory_tools" "lib/armory_tools" false;
    mkRepo "armory3d/Kromx_bin" "Krom" false;
    mkRepo "armory3d/Kha" "Kha" true;
    mkRepo "armory3d/nodejs_bin/" "nodejs" false ].

Fixpoint launch (env : environment) (cb : option callback) (p : string)
    (rs : list repo) : M (list thread) :=
  match rs with
  | [] => ret []
  | r :: rs' =>
      t <- git_clone env cb p (gitn r) (n r) (recursive r) ;;
      ts <- launch env cb p rs' ;;
      ret (match t with Some t => t :: ts | None => ts end)
  end.

(** [repos_updated = 0; repos_done = 0; repos_total = 9] *)
Definition reset_counters (w : world) : world :=
  set_repos_total 9 (set_repos_done 0 (set_repos_updated 0 w)).

(** [download_sdk(self, context)]: the value returned ([None] when the
    function falls off its end) and the waiter threads it has started. *)
Definition download_sdk (env : environment) (ctx : context)
  : M (option status * list thread) :=
  sdk_path <- get_sdk_path ctx ;;
  if String.eqb sdk_path EmptyString then
    act (report ERROR "Configure Armory SDK path first") ;;
    ret (Some CANCELLED, [])
  else
    act (report INFO "Downloading Armory SDK, check console for details.") ;;
    act (print "Armory (add-on v(2020, 8, 0)): Cloning [armory, iron, haxebullet, haxerecast, zui] repositories") ;;
    present <- os_path_exists sdk_path ;;
    (if negb present then os_makedirs sdk_path else ret tt) ;;
    os_chdir sdk_path ;;
    ok <- git_test env ;;
    if negb ok then
      act (print git_failed_message) ;;
      act (report ERROR git_failed_message) ;;
      ret (Some CANCELLED, [])
    else
      act reset_counters ;;
      ts <- launch env (Some done) sdk_path repos ;;
      ret (None, ts).

(** [ArmAddonRestoreButton.execute] *)
Definition restore_names : list string :=
  ["armory"; "iron"; "lib/haxebullet"; "lib/haxerecast"; "lib/zui";
   "lib/armory_tools"; "Kha"; "Krom"; "nodejs"].

Fixpoint restore_all (p : string) (ns : list string) : M unit :=
  match ns with
  | [] => ret tt
  | x :: ns' => restore_repo p x ;; restore_all p ns'
  end.

Definition restore_execute (ctx : context) : M status :=
  sdk_path <- get_sdk_path ctx ;;
  if String.eqb sdk_path EmptyString then
    act (report ERROR "Configure Armory SDK path first") ;;
    ret CANCELLED
  else
    os_chdir sdk_path ;;
    restore_all sdk_path restore_names ;;
    act (report INFO "Restored stable version") ;;
    ret FINISHED.

(** ** Interleaving of the launching thread, the processes and the
    waiter threads

    After the counters are reset the main thread goes through the nine
    [git_clone] calls while the processes already started write and end,
    and their waiter threads finish, in any order.  One step is the next
    [git_clone] call (which may raise and end the main thread), one write
    of a running process, or one waiter thread whose process has ended
    running [fn].  A waiter thread is listed with the process it waits
    for, which holds the writes still to come.  No thread of an earlier
    call of [download_sdk] is running.

    A call of [done] is one step here: the callbacks come in any order
    but do not overlap.  What overlapping callbacks do is the subject of
    [waiter_step] and [interleave] further down. *)
Inductive main_state :=
| Launching (rest : list repo)
| Crashed (e : exn).

Record config := mkConfig {
  main : main_state;
  pending : list thread;
  cw : world
}.

Definition opt_list {A} (o : option A) : list A :=
  match o with Some a => [a] | None => [] end.

(** The waiter thread [t] once its process has only [rest] left to write. *)
Definition waiting_for (t : thread) (rest : list write) : thread :=
  mkThread (th_cmd t) (mkProcess (exit_code (th_proc t)) rest) (th_done t).

Inductive step (env : environment) (p : string) : config -> config -> Prop :=
| step_launch r rs ts w t w' :
    git_clone env (Some done) p (gitn r) (n r) (recursive r) w = Ok t w' ->
    step env p (mkConfig (Launching (r :: rs)) ts w)
               (mkConfig (Launching rs) (ts ++ opt_list t) w')
| step_crash r rs ts w e w' :
    git_clone env (Some done) p (gitn r) (n r) (recursive r) w = Raise e w' ->
    step env p (mkConfig (Launching (r :: rs)) ts w)
               (mkConfig (Crashed e) ts w')
| step_write m ts1 t wr rest ts2 w :
    proc_writes (th_proc t) = wr :: rest ->
    step env p (mkConfig m (ts1 ++ t :: ts2) w)
               (mkConfig m (ts1 ++ waiting_for t rest :: ts2) (set_fs wr w))
| step_thread m ts1 t ts2 w :
    proc_writes (th_proc t) = [] ->
    step env p (mkConfig m (ts1 ++ t :: ts2) w)
               (mkConfig m (ts1 ++ ts2) (fn t w)).

Inductive steps (env : environment) (p : string) : config -> config -> Prop :=
| steps_refl c : steps env p c c
| steps_more c1 c2 c3 : steps env p c1 c2 -> step env p c2 c3 -> steps env p c1 c3.

(** The configuration in which the batch starts. *)
Definition batch_start (w : world) : config :=
  mkConfig (Launching repos) [] (reset_counters w).


(** The schedule in which the processes end and their waiter threads
    finish, one after the other in the given order. *)
Definition run_threads (ts : list thread) (w : world) : world :=
  fold_left (fun w t => finish t w) ts w.

#[global] Instance level_eq_dec : EqDecision level.
Proof. solve_decision. Defined.

#[global] Instance event_eq_dec : EqDecision event.
Proof. solve_decision. Defined.

(** Number of occurrences of an event in a trace. *)
Definition occurrences (e : event) (tr : list event) : nat :=
  length (filter (fun x => x = e) tr).

(** ** Descriptions the code is compared with *)

(** The target of a clone as the description of [git_clone] words it: an
    existing target without a backup is renamed to the backup name; a
    target that is still there afterwards is removed as a whole. *)
Definition prepare_target_spec (path : string) (w : world) : world :=
  let bak := path +:+ "_backup" in
  let w1 :=
    match fs w !! path, fs w !! bak with
    | Some t, None =>
        log (EvRename path bak) (set_fs (fun f => <[bak := t]> (delete path f)) w)
    | _, _ => w
    end in
  match fs w1 !! path with
  | Some _ => log (EvRmtree path) (set_fs (delete path) w1)
  | None => w1
  end.

Definition no_file_at (f : gmap string node) (path : string) : Prop :=
  forall ro d, f !! path <> Some (File ro d).

(** Nothing is at the path, or [shutil.rmtree] with [remove_readonly]
    removes what is there. *)
Definition removable_at (w : world) (path : string) : bool :=
  match fs w !! path with
  | Some t => removable (os w) t
  | None => true
  end.

(** [git_clone] and [restore_repo] call [shutil.rmtree] on the target
    exactly when the target and its backup both exist; the target is
    unblocked when that call, if it is made, removes the target. *)
Definition unblocked (w : world) (path : string) : bool :=
  match fs w !! (path +:+ "_backup") with
  | Some _ => removable_at w path
  | None => true
  end.

(** The exception [shutil.rmtree] with [remove_readonly] ends with on
    what it cannot remove: a regular file cannot be listed; in a
    directory the refusal comes back after the flag is cleared. *)
Definition stuck_exn (t : node) : exn :=
  match t with
  | File _ _ => NotADirectoryError
  | Dir _ _ => PermissionError
  end.

(** One fetch of one repository that runs to its end: [git_clone], then
    the waiter thread (if one was started) finishes. *)
Definition fetch (env : environment) (cb : option callback)
    (p : string) (r : repo) : M unit :=
  t <- git_clone env cb p (gitn r) (n r) (recursive r) ;;
  act (run_threads (opt_list t)).

(** Fetch, fetch again, restore. *)
Definition round_trip (env1 env2 : environment) (cb : option callback)
    (p : string) (r : repo) : M unit :=
  fetch env1 cb p r ;; fetch env2 cb p r ;; restore_repo p (n r).

(** The commands handed to [Popen], in order, and the error codes the
    callback was entered with, in order. *)
Definition popen_attempts (tr : list event) : list (list string) :=
  flat_map (fun e => match e with EvPopen cmd _ => [cmd] | _ => [] end) tr.

Definition calls (tr : list event) : list Z :=
  flat_map (fun e => match e with EvCall z => [z] | _ => [] end) tr.

Definition n_succeeded (w : world) : nat :=
  occurrences (EvPrint succeeded_message) (trace w).
Definition n_failed (w : world) : nat :=
  occurrences (EvReport ERROR failed_message) (trace w).

Definition has_slash (s : string) : bool :=
  existsb (Ascii.eqb "/"%char) (list_ascii_of_string s).

(** The statement of the round trip for one repository: after fetch,
    fetch, restore the primary path holds [c1] and no backup is left. *)
Definition round_trip_restores (env1 env2 : environment) (p : string)
    (r : repo) (w : world) (c1 : node) : Prop :=
  exists w',
    round_trip env1 env2 (Some done) p r w = Ok tt w'
    /\ fs w' !! (p +:+ "/" +:+ n r) = Some c1
    /\ fs w' !! ((p +:+ "/" +:+ n r) +:+ "_backup") = None.


(** ** What is observed of a batch

    The counters, the number of times each aggregate signal was emitted,
    the error codes the callback was entered with and the commands handed
    to [Popen]. *)
Record observation := mkObs {
  o_updated : Z;
  o_total : Z;
  o_done : Z;
  o_succeeded : nat;
  o_failed : nat;
  o_calls : list Z;
  o_attempts : list (list string)
}.

Definition observe (w : world) : observation :=
  mkObs (repos_updated w) (repos_total w) (repos_done w)
        (n_succeeded w) (n_failed w)
        (calls (trace w)) (popen_attempts (trace w)).

(** Events that are neither a signal, nor a callback entry, nor a [Popen]. *)
Definition background (e : event) : Prop :=
  e <> EvPrint succeeded_message
  /\ e <> EvReport ERROR failed_message
  /\ (forall z, e <> EvCall z)
  /\ (forall c b, e <> EvPopen c b).

(** The effect of [done(error)], of entering the callback and of a
    [Popen] on what is observed. *)
Definition after_done (error : Z) (o : observation) : observation :=
  let d := o_done o + 1 in
  let u := if (error =? 0)%Z then o_updated o + 1 else o_updated o in
  mkObs u (o_total o) d
        (if (u =? o_total o)%Z then S (o_succeeded o) else o_succeeded o)
        (if (u =? o_total o)%Z then o_failed o
         else if (d =? o_total o)%Z then S (o_failed o) else o_failed o)
        (o_calls o) (o_attempts o).

Definition after_call (error : Z) (o : observation) : observation :=
  mkObs (o_updated o) (o_total o) (o_done o) (o_succeeded o) (o_failed o)
        (o_calls o ++ [error]) (o_attempts o).

Definition after_popen (cmd : list string) (o : observation) : observation :=
  mkObs (o_updated o) (o_total o) (o_done o) (o_succeeded o) (o_failed o)
        (o_calls o) (o_attempts o ++ [cmd]).

(** A callback that does not itself record callback entries. *)
Definition silent (d : callback) : Prop :=
  forall e w, calls (trace (d e w)) = calls (trace w).

Definition path_of (p : string) (r : repo) : string := p +:+ "/" +:+ n r.

Definition command_of (p : string) (r : repo) : list string :=
  clone_command (path_of p r) (gitn r) (recursive r).

(** The invariant of a batch, relative to what was observed when it
    started: the counters are ordered, every callback still to come is
    accounted for by a pending waiter or a call not yet made, and a signal
    has been emitted exactly when the counters say so. *)
Definition batch_invariant (o0 : observation) (c : config) : Prop :=
  let o := observe (cw c) in
  o_total o = 9
  /\ 0 <= o_updated o <= o_done o
  /\ (forall t, In t (pending c) -> th_done t = Some done)
  /\ match main c with
     | Launching rest =>
         o_done o + Z.of_nat (length (pending c)) + Z.of_nat (length rest) = 9
     | Crashed _ =>
         o_done o + Z.of_nat (length (pending c)) < 9
     end
  /\ o_succeeded o
     = (o_succeeded o0 + if (o_updated o =? 9)%Z then 1 else 0)%nat
  /\ o_failed o
     = (o_failed o0
        + if ((o_done o =? 9) && negb (o_updated o =? 9))%Z then 1 else 0)%nat
  /\ Z.of_nat (length (o_calls o)) = Z.of_nat (length (o_calls o0)) + o_done o.

(** The two answers of the capability probe, in terms of what the
    environment gives: [git --version] cannot be run or its decoded output
    does not match the pattern; or it runs and the output matches. *)
Definition probe_fails (env : environment) : Prop :=
  match git_version env with
  | ProbeRaises _ => True
  | ProbeOutput output =>
      exists s, decode output = Some s /\ re_match git_version_re s = false
  end.

Definition probe_succeeds (env : environment) : Prop :=
  exists output s,
    git_version env = ProbeOutput output
    /\ decode output = Some s /\ re_match git_version_re s = true.

(** The world in which [download_sdk] runs the probe when the directory
    [sp] does not exist yet. *)
Definition entered_new_root (sp : string) (w : world) : world :=
  log (EvChdir sp)
    (set_cwd sp
       (log (EvMakedirs sp)
          (set_fs (fun f => <[sp := Dir false []]>
                              (make_above (rev (ancestors (os w) sp)) f))
             (print "Armory (add-on v(2020, 8, 0)): Cloning [armory, iron, haxebullet, haxerecast, zui] repositories"
                (report INFO "Downloading Armory SDK, check console for details." w))))).

Definition entered_old_root (sp : string) (w : world) : world :=
  log (EvChdir sp)
    (set_cwd sp
       (print "Armory (add-on v(2020, 8, 0)): Cloning [armory, iron, haxebullet, haxerecast, zui] repositories"
          (report INFO "Downloading Armory SDK, check console for details." w))).

(** The world at the end of the schedule in which the launching thread
    runs alone and the waiter threads then finish in their order. *)
Definition final_world (env : environment) (p : string) (w : world) : world :=
  match launch env (Some done) p repos (reset_counters w) with
  | Ok ts w' => run_threads ts w'
  | Raise _ w' => w'
  end.

Definition launches (env : environment) (p : string) (w : world) : Prop :=
  match launch env (Some done) p repos (reset_counters w) with
  | Ok _ _ => True
  | Raise _ _ => False
  end.

(** ** The callback statement by statement

    The waiter threads share the three globals and nothing serialises
    them.  To see what overlapping calls of [done] can do, the closure is
    taken apart into its statements, and each [+=] into the read of the
    global and the store of the sum.  A thread can be suspended between
    any two of these steps. *)
Inductive position :=
| AtStart               (* repos_done += 1     : the global is read      *)
| HasDone (r : Z)       (*                       r + 1 is stored         *)
| AtTest                (* if error == 0: repos_updated is read          *)
| HasUpdated (r : Z)    (* repos_updated += 1  : r + 1 is stored         *)
| AtSignal.             (* if ... == repos_total: ... elif ...: ...      *)

(** A waiter thread of the batch (its callback is [done]). *)
Inductive waiter :=
| Waits (cmd : list string) (p : process)   (* blocked in p.wait() *)
| Calls (error : Z) (pos : position)        (* inside done(error)  *)
| Ended.

Definition emit_signal (w : world) : world :=
  if (repos_updated w =? repos_total w)%Z then print succeeded_message w
  else if (repos_done w =? repos_total w)%Z then report ERROR failed_message w
  else w.

Definition waiter_step (s : waiter) (w : world) : waiter * world :=
  match s with
  | Waits cmd p =>
      (Calls 0 AtStart,
       log (EvCall 0) (log (EvWait cmd (exit_code p)) (set_fs (proc_run p) w)))
  | Calls error AtStart => (Calls error (HasDone (repos_done w)), w)
  | Calls error (HasDone r) => (Calls error AtTest, set_repos_done (r + 1) w)
  | Calls error AtTest =>
      if (error =? 0)%Z then (Calls error (HasUpdated (repos_updated w)), w)
      else (Calls error AtSignal, w)
  | Calls error (HasUpdated r) => (Calls error AtSignal, set_repos_updated (r + 1) w)
  | Calls error AtSignal => (Ended, emit_signal w)
  | Ended => (Ended, w)
  end.

(** The schedule names, step after step, the thread that moves. *)
Fixpoint interleave (schedule : list nat) (ws : list waiter) (w : world)
  : list waiter * world :=
  match schedule with
  | [] => (ws, w)
  | i :: rest =>
      match ws !! i with
      | Some s =>
          let '(s', w') := waiter_step s w in
          interleave rest (<[i := s']> ws) w'
      | None => interleave rest ws w
      end
  end.

Definition waiters_of (ts : list thread) : list waiter :=
  map (fun t => Waits (th_cmd t) (th_proc t)) ts.

(** A waiter goes from [p.wait()] to its end in six steps. *)
Definition alone (i : nat) : list nat := replicate 6 i.

(** One thread after the other, each running to its end. *)
Definition serial (first count : nat) : list nat :=
  concat (map alone (seq first count)).

Definition all_ended (ws : list waiter) : bool :=
  forallb (fun s => match s with Ended => true | _ => false end) ws.

(** ** Concrete worlds and environments used in the examples below *)

Definition bytes (s : string) : list Byte.byte := String.list_byte_of_string s.

Definition tree_old : node := Dir false [("old.txt", File true "0")].
Definition tree_v1 : node := Dir false [("v1.txt", File false "1")].
Definition tree_v2 : node :=
  Dir true [(".git", Dir true [("pack", File true "2")]); ("v2.txt", File true "2")].

Definition armory : repo := mkRepo "armory3d/armory" "armory" false.

(** Every process starts, writes [c] at [path] and exits with [code]. *)
Definition env_clone (output : string) (code : Z) (path : string) (c : node)
  : environment :=
  mkEnv (ProbeOutput (bytes output))
        (fun _ => PopenOk (mkProcess code [fun f => <[path := c]> f])).

Definition world_of_fs (f : gmap string node) : world :=
  mkWorld Windows f EmptyString 0 0 0 [].

(** The same world on a POSIX system. *)
Definition on_posix (w : world) : world :=
  mkWorld Posix (fs w) (cwd w) (repos_updated w) (repos_total w) (repos_done w)
          (trace w).

Definition w_empty : world := world_of_fs ∅.
Definition w_stale_backup : world :=
  world_of_fs {[ "/sdk/armory_backup" := tree_old ]}.
Definition w_installed : world :=
  world_of_fs {[ "/sdk/armory" := tree_v2 ]}.
Definition w_updated : world :=
  world_of_fs (<[ "/sdk/armory" := tree_v2 ]> {[ "/sdk/armory_backup" := tree_v1 ]}).

(** The destination of a clone command. *)
Definition destination (cmd : list string) : string :=
  match cmd with
  | _ :: _ :: "--recursive" :: _ :: path :: _ => path
  | _ :: _ :: _ :: path :: _ => path
  | _ => EmptyString
  end.

(** A clone that succeeds and leaves [tree_v1] at its destination. *)
Definition cloned (cmd : list string) : process :=
  mkProcess 0 [fun f => <[destination cmd := tree_v1]> f].

(** Every clone starts and succeeds. *)
Definition env_all_cloned : environment :=
  mkEnv (ProbeOutput (bytes "git version 2.34.1")) (fun cmd => PopenOk (cloned cmd)).

(** One process cannot be started: permission denied. *)
Definition env_one_denied (denied : list string) : environment :=
  mkEnv (ProbeOutput (bytes "git version 2.34.1"))
        (fun cmd => if decide (cmd = denied)
                    then PopenOSError (Some 13) "Permission denied"
                    else PopenOk (cloned cmd)).

Definition ctx_sdk : context := mkContext EmptyString "/sdk" "/"%char.

Definition env_armory_denied : environment :=
  env_one_denied (command_of "/sdk" armory).

Definition env_no_git : environment :=
  mkEnv (ProbeRaises "[Errno 2] No such file or directory: 'git'")
        (fun _ => PopenOk (mkProcess 0 [])).



Definition overlapping_run (schedule : list nat) : list waiter * world :=
  match download_sdk env_all_cloned ctx_sdk w_empty with
  | Ok (_, ts) w => interleave schedule (waiters_of ts) w
  | Raise _ w => ([], w)
  end.

(** ** The operators and the panel *)

(** [ArmAddonInstallButton.execute] and [ArmAddonUpdateButton.execute]:
    [download_sdk(self, context)], then [return {"FINISHED"}]; the value
    [download_sdk] returns is dropped. *)
Definition install_execute (env : environment) (ctx : context)
  : M (status * list thread) :=
  r <- download_sdk env ctx ;;
  ret (FINISHED, snd r).

Definition update_execute (env : environment) (ctx : context)
  : M (status * list thread) :=
  r <- download_sdk env ctx ;;
  ret (FINISHED, snd r).

(** The test of [ArmoryAddonPreferences.draw]:
    [os.path.exists(sdk_path + '/armory') or
     os.path.exists(sdk_path + '/armory_backup')]. *)
Definition draw_sdk_exists (ctx : context) : M bool :=
  sdk_path <- get_sdk_path ctx ;;
  here <- os_path_exists (sdk_path +:+ "/armory") ;;
  backed <- os_path_exists (sdk_path +:+ "/armory_backup") ;;
  ret (here || backed).

(** The operator [draw] puts next to Help: [arm_addon.update] when the
    SDK exists, [arm_addon.install] otherwise. *)
Definition draw_operator (ctx : context) : M string :=
  sdk_exists <- draw_sdk_exists ctx ;;
  ret (if sdk_exists then "arm_addon.update" else "arm_addon.install").

(** ** Further descriptions the code is compared with *)

(** The file system after [shutil.rmtree] with [remove_readonly] has
    been called on a path, whether or not it raised. *)
Definition after_rmtree (pf : platform) (path : string) (f : gmap string node)
  : gmap string node :=
  match fst (rmtree_at pf remove_readonly (f !! path)) with
  | Some n => <[path := n]> f
  | None => delete path f
  end.

(** The file system after [git_clone] has prepared its target, and after
    [restore_repo], whether or not they raise. *)
Definition prepare_fs (pf : platform) (path : string) (f : gmap string node)
  : gmap string node :=
  match f !! path with
  | None => f
  | Some t =>
      match f !! (path +:+ "_backup") with
      | None => <[path +:+ "_backup" := t]> (delete path f)
      | Some _ => after_rmtree pf path f
      end
  end.

Definition restore_fs (pf : platform) (path : string) (f : gmap string node)
  : gmap string node :=
  match f !! (path +:+ "_backup") with
  | None => f
  | Some b =>
      match f !! path with
      | None => <[path := b]> (delete (path +:+ "_backup") f)
      | Some t =>
          if removable pf t
          then <[path := b]> (delete (path +:+ "_backup") f)
          else after_rmtree pf path f
      end
  end.

(** Distinct names give distinct targets, and no target is the backup of
    another name. *)
Definition separated (p : string) (ns : list string) : Prop :=
  forall x y, In x ns -> In y ns -> x <> y ->
    p +:+ "/" +:+ x <> p +:+ "/" +:+ y
    /\ (p +:+ "/" +:+ x) +:+ "_backup" <> p +:+ "/" +:+ y
    /\ (p +:+ "/" +:+ x) +:+ "_backup" <> (p +:+ "/" +:+ y) +:+ "_backup".

(** A write that puts at [path] an object for which [G] holds and touches
    nothing else, and a process all of whose writes do so: each write
    leaves the destination as the clone has built it so far. *)
Definition writes_at (G : node -> Prop) (path : string) (wr : write) : Prop :=
  exists n, G n /\ forall f, wr f = <[path := n]> f.

Definition clones_at (G : node -> Prop) (path : string) (pr : process) : Prop :=
  Forall (writes_at G path) (proc_writes pr).


(** Every clone of the batch that starts writes at its own destination
    only. *)
Definition confined (G : node -> Prop) (env : environment) (p : string) : Prop :=
  forall r pr, In r repos ->
    popen env (command_of p r) = PopenOk pr -> clones_at G (path_of p r) pr.

(** The copy of a repository that is the oldest when a batch starts: its
    backup if it has one, otherwise what is at the target. *)
Definition oldest (p : string) (f0 : gmap string node) (r : repo) : option node :=
  match f0 !! (path_of p r +:+ "_backup") with
  | Some b => Some b
  | None => f0 !! path_of p r
  end.

(** The file system along a batch that started in the world [w0], as
    long as the launching thread runs: the repositories still to come
    are as they were; each one already launched has kept its oldest copy
    as its backup and has at its target nothing but what its clone has
    written; nothing else has changed; the commands handed to [Popen]
    are those of the repositories launched; and every waiter thread
    belongs to one of them. *)
Definition batch_fs (G : node -> Prop) (p : string) (w0 : world) (c : config)
  : Prop :=
  match main c with
  | Launching rest =>
      exists launched,
        repos = (launched ++ rest)%list
        /\ os (cw c) = os w0
        /\ popen_attempts (trace (cw c))
           = (popen_attempts (trace w0) ++ map (command_of p) launched)%list
        /\ (forall k,
              (forall r, In r repos ->
                         k <> path_of p r /\ k <> path_of p r +:+ "_backup") ->
              fs (cw c) !! k = fs w0 !! k)
        /\ (forall r, In r rest ->
              fs (cw c) !! path_of p r = fs w0 !! path_of p r
              /\ fs (cw c) !! (path_of p r +:+ "_backup")
                 = fs w0 !! (path_of p r +:+ "_backup"))
        /\ (forall r, In r launched ->
              fs (cw c) !! (path_of p r +:+ "_backup") = oldest p (fs w0) r
              /\ (fs (cw c) !! path_of p r = None
                  \/ exists n, fs (cw c) !! path_of p r = Some n /\ G n))
        /\ (forall t, In t (pending c) ->
              exists r, In r launched
                        /\ th_cmd t = command_of p r
                        /\ th_done t = Some done
                        /\ clones_at G (path_of p r) (th_proc t))
  | Crashed _ => True
  end.



Definition last_char : string -> option ascii :=
  fix go (s : string) :=
    match s with
    | EmptyString => None
    | String c EmptyString => Some c
    | String _ s' => go s'
    end.

Definition has_sep (sep : ascii) (s : string) : bool :=
  existsb (fun c => Ascii.eqb c sep) (list_ascii_of_string s).

(** Further worlds and environments for the examples. *)
Definition env_undecodable : environment :=
  mkEnv (ProbeOutput [Byte.xff]) (fun cmd => PopenOk (cloned cmd)).


Definition w_file_in_the_way : world :=
  world_of_fs (<[ "/sdk/iron" := File true "x" ]>
                 {[ "/sdk/iron_backup" := tree_v1 ]}).

Definition w_sdk_root : world :=
  world_of_fs (<[ "/sdk" := Dir false [] ]>
              (<[ "/sdk/armory" := tree_v2 ]>
              (<[ "/sdk/armory_backup" := tree_v1 ]>
              {[ "/sdk/iron" := tree_old ]}))).




(** Two calls of [download_sdk] in a row, the second while the waiter
    threads of the first are still blocked in [p.wait()]: the world after
    the second batch of launches, and the waiter threads of the first
    and of the second call. *)
Definition two_batches (env : environment) (p : string) (w : world)
  : world * list thread * list thread :=
  match launch env (Some done) p repos (reset_counters w) with
  | Ok ts1 w1 =>
      match launch env (Some done) p repos (reset_counters w1) with
      | Ok ts2 w2 => (w2, ts1, ts2)
      | Raise _ w2 => (w2, ts1, [])
      end
  | Raise _ w1 => (w1, [], [])
  end.

(** The world in which [download_sdk] resets the counters, after the
    directory was entered and the probe has succeeded. *)
Definition probed (sp : string) (w : world) : world :=
  print "Test succeeded."
    (log EvProbe
       (print "Testing if git is working..."
          (match fs w !! sp with
           | None => entered_new_root sp w
           | Some _ => entered_old_root sp w
           end))).
(** * Properties *)

(** ** Strings *)

Lemma append_backup_neq (s t : string) :
  t <> EmptyString -> s +:+ t <> s.
Proof.
  intros Ht. induction s as [|c s IH]; simpl.
  - exact Ht.
  - intros H. injection H as H. exact (IH H).
Qed.

Lemma backup_neq (s : string) : s +:+ "_backup" <> s.
Proof. apply append_backup_neq. discriminate. Qed.

Lemma has_slash_path (p x : string) : has_slash (p +:+ "/" +:+ x) = true.
Proof.
  unfold has_slash. induction p as [|c p IH]; simpl.
  - reflexivity.
  - rewrite IH. apply orb_true_r.
Qed.

Lemma path_neq_flag (p x flag : string) :
  has_slash flag = false -> p +:+ "/" +:+ x <> flag.
Proof.
  intros Hf Heq. rewrite <- Heq, has_slash_path in Hf. discriminate.
Qed.

(** ** Recursive deletion with [remove_readonly] *)

(** On Windows the handler lifts every refusal. *)
Lemma try_unlink_windows above ro d :
  try_func Windows remove_readonly f_unlink above (Some (File ro d)) = (None, None).
Proof. destruct ro; reflexivity. Qed.

Lemma try_rmdir_windows above ro :
  try_func Windows remove_readonly f_rmdir above (Some (Dir ro [])) = (None, None).
Proof. destruct ro; reflexivity. Qed.

(** On POSIX it lifts none: the call refused because of the directory
    above is refused again. *)
Lemma try_unlink_posix above ro d :
  try_func Posix remove_readonly f_unlink above (Some (File ro d))
  = if above then (Some (File false d), Some PermissionError) else (None, None).
Proof. destruct above; reflexivity. Qed.

Lemma try_rmdir_posix above ro :
  try_func Posix remove_readonly f_rmdir above (Some (Dir ro []))
  = if above then (Some (Dir false []), Some PermissionError) else (None, None).
Proof. destruct above; reflexivity. Qed.

(** Whatever attributes are set inside, on Windows a directory tree is
    removed completely and nothing is raised. *)
Lemma rmtree_windows above ro es :
  rmtree_unsafe Windows remove_readonly above (Dir ro es) = (None, None).
Proof.
  revert above ro es.
  assert (H : forall m above,
             match m with
             | Dir _ _ => rmtree_unsafe Windows remove_readonly above m = (None, None)
             | File _ _ => True
             end).
  { induction m as [|ro es IH] using node_nested_ind; [intros; exact I|].
    intros above. cbn [rmtree_unsafe].
    assert (Hes : rmtree_entries Windows (rmtree_unsafe Windows remove_readonly ro)
                    remove_readonly ro es = ([], None)).
    { induction IH as [|[nm c] r Hc _ IHr]; [reflexivity|].
      cbn [rmtree_entries].
      fold (rmtree_entries Windows (rmtree_unsafe Windows remove_readonly ro)
              remove_readonly ro).
      destruct c as [ro' d|ro' es'].
      - rewrite try_unlink_windows, IHr. reflexivity.
      - cbn [snd] in Hc. rewrite (Hc ro), IHr. reflexivity. }
    rewrite Hes. apply try_rmdir_windows. }
  intros above ro es. exact (H (Dir ro es) above).
Qed.

(** On POSIX a directory tree is removed completely when every directory
    that holds something is writable; otherwise the walk ends with
    [PermissionError] at the first entry of a read-only directory. *)
Lemma rmtree_posix above ro es :
  if unlinkable above (Dir ro es)
  then rmtree_unsafe Posix remove_readonly above (Dir ro es) = (None, None)
  else exists n',
         rmtree_unsafe Posix remove_readonly above (Dir ro es)
         = (Some n', Some PermissionError).
Proof.
  revert above ro es.
  assert (H : forall m above,
             match m with
             | Dir _ _ =>
                 if unlinkable above m
                 then rmtree_unsafe Posix remove_readonly above m = (None, None)
                 else exists n', rmtree_unsafe Posix remove_readonly above m
                                 = (Some n', Some PermissionError)
             | File _ _ => True
             end).
  { induction m as [|ro es IH] using node_nested_ind; [intros; exact I|].
    intros above.
    assert (Hes :
      if forallb (fun e => unlinkable ro (snd e)) es
      then rmtree_entries Posix (rmtree_unsafe Posix remove_readonly ro)
             remove_readonly ro es = ([], None)
      else exists es', rmtree_entries Posix (rmtree_unsafe Posix remove_readonly ro)
                         remove_readonly ro es = (es', Some PermissionError)).
    { induction IH as [|[nm c] r Hc _ IHr]; [reflexivity|].
      cbn [forallb snd rmtree_entries].
      fold (rmtree_entries Posix (rmtree_unsafe Posix remove_readonly ro)
              remove_readonly ro).
      destruct c as [ro' d|ro' es'].
      - rewrite try_unlink_posix. cbn [unlinkable]. rewrite andb_true_r.
        destruct ro; cbn [negb andb]; [eauto|].
        destruct (forallb _ r).
        + rewrite IHr. reflexivity.
        + destruct IHr as [es' ->]. eauto.
      - cbn [snd] in Hc. specialize (Hc ro).
        destruct (unlinkable ro (Dir ro' es')); cbn [andb].
        + rewrite Hc. destruct (forallb _ r).
          * rewrite IHr. reflexivity.
          * destruct IHr as [es'' ->]. eauto.
        + destruct Hc as [n' ->]. eauto. }
    cbn [unlinkable rmtree_unsafe].
    destruct (forallb (fun e => unlinkable ro (snd e)) es).
    - rewrite Hes, try_rmdir_posix, andb_true_r.
      destruct above; cbn [negb]; eauto.
    - destruct Hes as [es' ->]. rewrite andb_false_r. eauto. }
  intros above ro es. exact (H (Dir ro es) above).
Qed.

(** A regular file at the path is not removed on either platform:
    listing it fails again after the flag has been cleared. *)
Lemma rmtree_regular_file pf above ro d :
  rmtree_unsafe pf remove_readonly above (File ro d)
  = (Some (File false d), Some NotADirectoryError).
Proof. reflexivity. Qed.

(** What [shutil.rmtree] with [remove_readonly] does to what is at a
    path: it removes it completely, or raises and leaves something. *)
Lemma rmtree_outcome pf t :
  if removable pf t
  then rmtree_at pf remove_readonly (Some t) = (None, None)
  else exists n', rmtree_at pf remove_readonly (Some t) = (Some n', Some (stuck_exn t)).
Proof.
  destruct t as [ro d|ro es]; cbn [removable rmtree_at stuck_exn].
  - rewrite rmtree_regular_file. eauto.
  - destruct pf.
    + apply rmtree_windows.
    + apply (rmtree_posix false ro es).
Qed.

Lemma rmtree_removable pf t :
  removable pf t = true -> rmtree_at pf remove_readonly (Some t) = (None, None).
Proof. intros H. pose proof (rmtree_outcome pf t) as Ho. now rewrite H in Ho. Qed.

Lemma rmtree_stuck pf t :
  removable pf t = false ->
  exists n', rmtree_at pf remove_readonly (Some t) = (Some n', Some (stuck_exn t)).
Proof. intros H. pose proof (rmtree_outcome pf t) as Ho. now rewrite H in Ho. Qed.

(** Without the handler the walk stops at the first refusal, on Windows
    too. *)
Lemma rmtree_default_stops :
  rmtree_unsafe Windows onerror_raise false (Dir false [("pack", File true "x")])
  = (Some (Dir false [("pack", File true "x")]), Some PermissionError).
Proof. reflexivity. Qed.

Lemma append_assoc (a b c : string) : (a +:+ b) +:+ c = a +:+ b +:+ c.
Proof.
  induction a as [|x a IH]; [reflexivity|].
  change (String x ((a +:+ b) +:+ c) = String x (a +:+ b +:+ c)).
  now f_equal.
Qed.

Lemma restore_backup_path (p x : string) :
  p +:+ "/" +:+ x +:+ "_backup" = (p +:+ "/" +:+ x) +:+ "_backup".
Proof. now rewrite !append_assoc. Qed.

(** ** One repository: [git_clone] and [restore_repo] *)

Lemma fs_log e w : fs (log e w) = fs w.
Proof. reflexivity. Qed.

Lemma fs_done e w : fs (done e w) = fs w.
Proof.
  unfold done. cbn.
  repeat match goal with |- context [if ?b then _ else _] => destruct b end;
    reflexivity.
Qed.

Lemma fs_call_done e w : fs (call (Some done) e w) = fs w.
Proof. unfold call. now rewrite fs_done. Qed.

Lemma os_done e w : os (done e w) = os w.
Proof.
  unfold done. cbn.
  repeat match goal with |- context [if ?b then _ else _] => destruct b end;
    reflexivity.
Qed.

(** [shutil.rmtree] with [remove_readonly] on what is at a path. *)
Lemma shutil_rmtree_removable path w t :
  fs w !! path = Some t ->
  removable (os w) t = true ->
  shutil_rmtree path remove_readonly w
  = Ok tt (log (EvRmtree path) (set_fs (delete path) w)).
Proof.
  intros Hp Hr. unfold shutil_rmtree. rewrite Hp.
  now rewrite (rmtree_removable _ _ Hr).
Qed.

Lemma shutil_rmtree_stuck path w t :
  fs w !! path = Some t ->
  removable (os w) t = false ->
  exists n',
    shutil_rmtree path remove_readonly w
    = Raise (stuck_exn t)
        (log (EvRmtree path) (set_fs (fun f => <[path := n']> f) w)).
Proof.
  intros Hp Hr. unfold shutil_rmtree. rewrite Hp.
  destruct (rmtree_stuck _ _ Hr) as [n' ->]. now exists n'.
Qed.

(** When the target is not blocked, [git_clone] is the preparation of the
    target followed by [run_proc]. *)
Lemma git_clone_unfold env cb p gitn x rec w :
  let path := p +:+ "/" +:+ x in
  unblocked w path = true ->
  git_clone env cb p gitn x rec w =
    let '(w', t) := run_proc env (clone_command path gitn rec) cb
                      (prepare_target_spec path w) in
    Ok t w'.
Proof.
  intros path Hu. unfold git_clone, prepare_target_spec. fold path.
  unfold unblocked, removable_at in Hu.
  unfold bind, os_path_exists, ret.
  destruct (fs w !! path) as [t|] eqn:Hp;
    destruct (fs w !! (path +:+ "_backup")) as [b|] eqn:Hb; cbn [andb negb].
  - rewrite Hp. rewrite (shutil_rmtree_removable path w t Hp Hu). reflexivity.
  - unfold os_rename. rewrite Hp, Hb. cbn.
    rewrite lookup_insert_ne by apply backup_neq.
    rewrite lookup_delete_eq. reflexivity.
  - rewrite Hp. reflexivity.
  - rewrite Hp. reflexivity.
Qed.

(** When it is blocked, [git_clone] raises out of [shutil.rmtree]: the
    clone is not launched. *)
Lemma git_clone_blocked env cb p gitn x rec w :
  let path := p +:+ "/" +:+ x in
  unblocked w path = false ->
  exists t b n',
    fs w !! path = Some t
    /\ fs w !! (path +:+ "_backup") = Some b
    /\ removable (os w) t = false
    /\ git_clone env cb p gitn x rec w
       = Raise (stuck_exn t)
           (log (EvRmtree path) (set_fs (fun f => <[path := n']> f) w)).
Proof.
  intros path Hu. unfold unblocked, removable_at in Hu.
  destruct (fs w !! (path +:+ "_backup")) as [b|] eqn:Hb; [|discriminate].
  destruct (fs w !! path) as [t|] eqn:Hp; [|discriminate].
  destruct (shutil_rmtree_stuck path w t Hp Hu) as [n' Hrm].
  exists t, b, n'. split; [reflexivity|]. split; [reflexivity|].
  split; [exact Hu|].
  unfold git_clone. fold path. unfold bind, os_path_exists, ret.
  rewrite Hp, Hb. cbn [andb negb]. rewrite Hp, Hrm. reflexivity.
Qed.

Lemma restore_repo_no_backup p x w :
  fs w !! ((p +:+ "/" +:+ x) +:+ "_backup") = None ->
  restore_repo p x w = Ok tt w.
Proof.
  intros Hb. unfold restore_repo, bind, os_path_exists, ret.
  rewrite restore_backup_path, Hb. reflexivity.
Qed.

Lemma restore_repo_backup p x w b :
  let path := p +:+ "/" +:+ x in
  fs w !! (path +:+ "_backup") = Some b ->
  removable_at w path = true ->
  exists w',
    restore_repo p x w = Ok tt w'
    /\ fs w' = <[path := b]> (delete (path +:+ "_backup") (fs w))
    /\ trace w' = (trace w
                   ++ match fs w !! path with
                      | Some _ => [EvRmtree path]
                      | None => []
                      end
                   ++ [EvRename (path +:+ "_backup") path])%list
    /\ cwd w' = cwd w
    /\ (repos_updated w', repos_total w', repos_done w')
       = (repos_updated w, repos_total w, repos_done w)
    /\ os w' = os w.
Proof.
  intros path Hb Hr. unfold restore_repo, bind, os_path_exists, ret.
  rewrite restore_backup_path. fold path. rewrite Hb.
  unfold removable_at in Hr.
  destruct (fs w !! path) as [t|] eqn:Hp.
  - rewrite (shutil_rmtree_removable path w t Hp Hr).
    unfold os_rename. cbn.
    rewrite lookup_delete_ne by (intros H; symmetry in H; revert H; apply backup_neq).
    rewrite Hb, lookup_delete_eq.
    eexists. split; [reflexivity|]. cbn.
    repeat split.
    + rewrite (delete_delete _ (path +:+ "_backup") path), insert_delete_eq. reflexivity.
    + now rewrite <- app_assoc.
  - unfold os_rename. rewrite Hb, Hp.
    eexists. split; [reflexivity|]. cbn. repeat split.
Qed.

Lemma restore_repo_blocked p x w b t :
  let path := p +:+ "/" +:+ x in
  fs w !! (path +:+ "_backup") = Some b ->
  fs w !! path = Some t ->
  removable (os w) t = false ->
  exists n',
    restore_repo p x w
    = Raise (stuck_exn t)
        (log (EvRmtree path) (set_fs (fun f => <[path := n']> f) w)).
Proof.
  intros path Hb Hp Hr.
  destruct (shutil_rmtree_stuck path w t Hp Hr) as [n' Hrm]. exists n'.
  unfold restore_repo, bind, os_path_exists, ret.
  rewrite restore_backup_path. fold path. rewrite Hb, Hp, Hrm. reflexivity.
Qed.

(** C5 (amended): before the clone is launched, [git_clone] renames an
    existing target to its [_backup] name when no backup exists yet, and
    calls [shutil.rmtree] with [remove_readonly] on a target that is
    still there afterwards.  When that call removes the target (on
    Windows: every directory, whatever read-only attributes are set
    inside it; on POSIX: a directory in which every directory that holds
    something is writable), the clone command is handed to [run_proc] in
    the world so prepared.  When it does not (a regular file at the
    target; on POSIX an entry of a read-only directory), [git_clone]
    raises, with what is left still at the target, the backup untouched,
    and nothing handed to [Popen]. *)
Theorem git_clone_prepares_target env cb p gitn x rec w :
  (unblocked w (p +:+ "/" +:+ x) = true ->
   git_clone env cb p gitn x rec w =
     (let '(w', t) := run_proc env (clone_command (p +:+ "/" +:+ x) gitn rec) cb
                        (prepare_target_spec (p +:+ "/" +:+ x) w) in
      Ok t w')
   /\ (forall t, fs w !! (p +:+ "/" +:+ x) = Some t ->
                 fs w !! ((p +:+ "/" +:+ x) +:+ "_backup") = None ->
         fs (prepare_target_spec (p +:+ "/" +:+ x) w)
         = <[(p +:+ "/" +:+ x) +:+ "_backup" := t]> (delete (p +:+ "/" +:+ x) (fs w)))
   /\ (is_Some (fs w !! (p +:+ "/" +:+ x)) ->
       is_Some (fs w !! ((p +:+ "/" +:+ x) +:+ "_backup")) ->
         fs (prepare_target_spec (p +:+ "/" +:+ x) w) = delete (p +:+ "/" +:+ x) (fs w))
   /\ fs (prepare_target_spec (p +:+ "/" +:+ x) w) !! (p +:+ "/" +:+ x) = None)
  /\ (unblocked w (p +:+ "/" +:+ x) = false ->
      exists t b n' w',
        fs w !! (p +:+ "/" +:+ x) = Some t
        /\ fs w !! ((p +:+ "/" +:+ x) +:+ "_backup") = Some b
        /\ removable (os w) t = false
        /\ git_clone env cb p gitn x rec w = Raise (stuck_exn t) w'
        /\ fs w' = <[p +:+ "/" +:+ x := n']> (fs w)
        /\ trace w' = (trace w ++ [EvRmtree (p +:+ "/" +:+ x)])%list)
  /\ (forall ro es, removable Windows (Dir ro es) = true)
  /\ (forall ro es, removable Posix (Dir ro es)
                    = forallb (fun e => unlinkable ro (snd e)) es)
  /\ (forall pf ro d, removable pf (File ro d) = false).
Proof.
  split; [|split; [|split; [|split]]]; try reflexivity.
  - intros Hu. split; [apply git_clone_unfold; exact Hu|].
    unfold prepare_target_spec.
    split; [|split].
    + intros t Hp Hb. rewrite Hp, Hb. cbn.
      rewrite lookup_insert_ne by apply backup_neq.
      now rewrite lookup_delete_eq.
    + intros [t Hp] [b Hb]. rewrite Hp, Hb, Hp. reflexivity.
    + destruct (fs w !! (p +:+ "/" +:+ x)) as [t|] eqn:Hp;
        destruct (fs w !! ((p +:+ "/" +:+ x) +:+ "_backup")) as [b|] eqn:Hb; cbn.
      * rewrite Hp. cbn. apply lookup_delete_eq.
      * rewrite lookup_insert_ne by apply backup_neq.
        rewrite lookup_delete_eq. cbn.
        rewrite lookup_insert_ne by apply backup_neq. apply lookup_delete_eq.
      * now rewrite Hp.
      * now rewrite Hp.
  - intros Hu.
    destruct (git_clone_blocked env cb p gitn x rec w Hu)
      as (t & b & n' & Hp & Hb & Hr & Hg).
    exists t, b, n'. eexists. split; [exact Hp|]. split; [exact Hb|].
    split; [exact Hr|]. split; [exact Hg|]. split; reflexivity.
Qed.

Lemma git_clone_prepares_target_witness :
  (git_clone (env_clone "git version 2.34.1" 0 "/sdk/armory" tree_v1)
     (Some done) "/sdk" "armory3d/armory" "armory" false w_updated
   = (let '(w', t) :=
        run_proc (env_clone "git version 2.34.1" 0 "/sdk/armory" tree_v1)
          (clone_command "/sdk/armory" "armory3d/armory" false) (Some done)
          (prepare_target_spec "/sdk/armory" w_updated) in
      Ok t w')
   /\ fs (prepare_target_spec "/sdk/armory" w_updated)
      = delete "/sdk/armory" (fs w_updated))
  /\ fs (prepare_target_spec "/sdk/armory" w_installed)
     = <["/sdk/armory_backup" := tree_v2]> (delete "/sdk/armory" (fs w_installed))
  /\ exists t b n' w',
       fs (on_posix w_updated) !! "/sdk/armory" = Some t
       /\ fs (on_posix w_updated) !! "/sdk/armory_backup" = Some b
       /\ removable Posix t = false
       /\ git_clone (env_clone "git version 2.34.1" 0 "/sdk/armory" tree_v1)
            (Some done) "/sdk" "armory3d/armory" "armory" false (on_posix w_updated)
          = Raise (stuck_exn t) w'
       /\ fs w' = <["/sdk/armory" := n']> (fs w_updated)
       /\ trace w' = [EvRmtree "/sdk/armory"].
Proof.
  split; [|split].
  - destruct (proj1 (git_clone_prepares_target
                (env_clone "git version 2.34.1" 0 "/sdk/armory" tree_v1)
                (Some done) "/sdk" "armory3d/armory" "armory" false w_updated)
                eq_refl)
      as (H1 & _ & H3 & _).
    split; [exact H1|]. apply H3; eexists; reflexivity.
  - destruct (proj1 (git_clone_prepares_target
                (env_clone "git version 2.34.1" 0 "/sdk/armory" tree_v1)
                (Some done) "/sdk" "armory3d/armory" "armory" false w_installed)
                eq_refl)
      as (_ & H2 & _).
    apply (H2 tree_v2); reflexivity.
  - exact (proj1 (proj2 (git_clone_prepares_target
                (env_clone "git version 2.34.1" 0 "/sdk/armory" tree_v1)
                (Some done) "/sdk" "armory3d/armory" "armory" false
                (on_posix w_updated)))
             eq_refl).
Defined.

(** C5 as stated fails: a target that is still there is not always
    deleted.  With a regular file at the target and a backup in place
    the listing fails again after the flag is cleared, on either
    platform; on POSIX clearing the flag of an entry does not help
    against the read-only directory that holds it.  In both cases
    [git_clone] raises and the clone command never reaches [Popen]. *)
Lemma git_clone_leaves_what_it_cannot_remove :
  (git_clone env_all_cloned (Some done) "/sdk" "armory3d/iron" "iron" false
     w_file_in_the_way
   = Raise NotADirectoryError
       (world_of (git_clone env_all_cloned (Some done) "/sdk" "armory3d/iron"
                    "iron" false w_file_in_the_way))
   /\ fs (world_of (git_clone env_all_cloned (Some done) "/sdk" "armory3d/iron"
                      "iron" false w_file_in_the_way)) !! "/sdk/iron"
      = Some (File false "x")
   /\ trace (world_of (git_clone env_all_cloned (Some done) "/sdk"
                         "armory3d/iron" "iron" false w_file_in_the_way))
      = [EvRmtree "/sdk/iron"])
  /\ (git_clone env_all_cloned (Some done) "/sdk" "armory3d/armory" "armory" false
        (on_posix w_updated)
      = Raise PermissionError
          (world_of (git_clone env_all_cloned (Some done) "/sdk" "armory3d/armory"
                       "armory" false (on_posix w_updated)))
      /\ fs (world_of (git_clone env_all_cloned (Some done) "/sdk"
                         "armory3d/armory" "armory" false (on_posix w_updated)))
           !! "/sdk/armory"
         = Some (Dir true [(".git", Dir true [("pack", File false "2")]);
                           ("v2.txt", File true "2")])
      /\ trace (world_of (git_clone env_all_cloned (Some done) "/sdk"
                            "armory3d/armory" "armory" false (on_posix w_updated)))
         = [EvRmtree "/sdk/armory"]).
Proof. repeat split; vm_compute; reflexivity. Qed.

(** C6 (amended): without a backup [restore_repo] changes nothing at
    all.  With a backup in place it calls [shutil.rmtree] with
    [remove_readonly] on the current copy, if there is one; when that
    removes the copy (or there is none) the backup is renamed to the
    primary path; when it does not, [restore_repo] raises and the backup
    stays where it is. *)
Theorem restore_repo_restores p x w :
  (fs w !! ((p +:+ "/" +:+ x) +:+ "_backup") = None ->
   restore_repo p x w = Ok tt w)
  /\ (forall b,
        fs w !! ((p +:+ "/" +:+ x) +:+ "_backup") = Some b ->
        removable_at w (p +:+ "/" +:+ x) = true ->
        exists w',
          restore_repo p x w = Ok tt w'
          /\ fs w' = <[p +:+ "/" +:+ x := b]>
                       (delete ((p +:+ "/" +:+ x) +:+ "_backup") (fs w))
          /\ trace w' = (trace w
                         ++ match fs w !! (p +:+ "/" +:+ x) with
                            | Some _ => [EvRmtree (p +:+ "/" +:+ x)]
                            | None => []
                            end
                         ++ [EvRename ((p +:+ "/" +:+ x) +:+ "_backup")
                                      (p +:+ "/" +:+ x)])%list)
  /\ (forall b,
        fs w !! ((p +:+ "/" +:+ x) +:+ "_backup") = Some b ->
        removable_at w (p +:+ "/" +:+ x) = false ->
        exists t n' w',
          fs w !! (p +:+ "/" +:+ x) = Some t
          /\ restore_repo p x w = Raise (stuck_exn t) w'
          /\ fs w' = <[p +:+ "/" +:+ x := n']> (fs w)
          /\ fs w' !! ((p +:+ "/" +:+ x) +:+ "_backup") = Some b
          /\ trace w' = (trace w ++ [EvRmtree (p +:+ "/" +:+ x)])%list).
Proof.
  split; [|split].
  - apply restore_repo_no_backup.
  - intros b Hb Hr.
    destruct (restore_repo_backup p x w b Hb Hr) as (w' & H1 & H2 & H3 & _).
    exists w'. auto.
  - intros b Hb Hr. unfold removable_at in Hr.
    destruct (fs w !! (p +:+ "/" +:+ x)) as [t|] eqn:Hp; [|discriminate].
    destruct (restore_repo_blocked p x w b t Hb Hp Hr) as [n' H].
    exists t, n'. eexists. split; [reflexivity|]. split; [exact H|].
    split; [reflexivity|]. split; [|reflexivity].
    cbn [fs log set_fs].
    rewrite lookup_insert_ne
      by (intros E; symmetry in E; revert E; apply backup_neq).
    exact Hb.
Qed.

Lemma restore_repo_restores_witness :
  restore_repo "/sdk" "armory" w_installed = Ok tt w_installed
  /\ (exists w',
        restore_repo "/sdk" "armory" w_updated = Ok tt w'
        /\ fs w' = <["/sdk/armory" := tree_v1]> (delete "/sdk/armory_backup" (fs w_updated))
        /\ trace w' = [EvRmtree "/sdk/armory"; EvRename "/sdk/armory_backup" "/sdk/armory"])
  /\ (exists t n' w',
        fs w_file_in_the_way !! "/sdk/iron" = Some t
        /\ restore_repo "/sdk" "iron" w_file_in_the_way = Raise (stuck_exn t) w'
        /\ fs w' = <["/sdk/iron" := n']> (fs w_file_in_the_way)
        /\ fs w' !! "/sdk/iron_backup" = Some tree_v1
        /\ trace w' = [EvRmtree "/sdk/iron"]).
Proof.
  split; [|split].
  - apply (proj1 (restore_repo_restores "/sdk" "armory" w_installed)). reflexivity.
  - refine (proj1 (proj2 (restore_repo_restores "/sdk" "armory" w_updated))
              tree_v1 _ _); reflexivity.
  - refine (proj2 (proj2 (restore_repo_restores "/sdk" "iron" w_file_in_the_way))
              tree_v1 _ _); reflexivity.
Defined.

(** C6 as stated fails: with a backup in place the current copy is not
    always deleted and the backup not always renamed back.  With a
    regular file at the primary path, on either platform, and on POSIX
    with a read-only directory in the current copy, [restore_repo]
    raises; the backup is still under its backup name. *)
Lemma restore_repo_leaves_the_backup :
  (restore_repo "/sdk" "iron" w_file_in_the_way
   = Raise NotADirectoryError
       (world_of (restore_repo "/sdk" "iron" w_file_in_the_way))
   /\ fs (world_of (restore_repo "/sdk" "iron" w_file_in_the_way)) !! "/sdk/iron"
      = Some (File false "x")
   /\ fs (world_of (restore_repo "/sdk" "iron" w_file_in_the_way))
        !! "/sdk/iron_backup" = Some tree_v1)
  /\ (restore_repo "/sdk" "armory" (on_posix w_updated)
      = Raise PermissionError
          (world_of (restore_repo "/sdk" "armory" (on_posix w_updated)))
      /\ fs (world_of (restore_repo "/sdk" "armory" (on_posix w_updated)))
           !! "/sdk/armory_backup" = Some tree_v1
      /\ is_Some (fs (world_of (restore_repo "/sdk" "armory" (on_posix w_updated)))
                    !! "/sdk/armory")).
Proof.
  repeat split; try (vm_compute; reflexivity).
  vm_compute. eauto.
Qed.

(** Restoring every repository when no backup exists changes nothing. *)
Lemma restore_all_no_backups p ns w :
  (forall x, In x ns -> fs w !! ((p +:+ "/" +:+ x) +:+ "_backup") = None) ->
  restore_all p ns w = Ok tt w.
Proof.
  induction ns as [|x ns IH]; intros H; [reflexivity|].
  cbn [restore_all]. unfold bind.
  rewrite restore_repo_no_backup by (apply H; now left).
  apply IH. intros y Hy. apply H. now right.
Qed.

(** [ArmAddonRestoreButton.execute] without any backup: the working
    directory changes, the report is made, the file system is as before. *)
Lemma restore_execute_no_backups ctx w sp ro es :
  get_sdk_path ctx w = Ok sp w ->
  sp <> EmptyString ->
  fs w !! sp = Some (Dir ro es) ->
  (forall x, In x restore_names ->
             fs w !! ((sp +:+ "/" +:+ x) +:+ "_backup") = None) ->
  restore_execute ctx w
  = Ok FINISHED (report INFO "Restored stable version"
                   (log (EvChdir sp) (set_cwd sp w))).
Proof.
  intros Hsp Hne Hroot Hnone. unfold restore_execute, bind. rewrite Hsp.
  apply String.eqb_neq in Hne. rewrite Hne.
  unfold os_chdir. rewrite Hroot.
  rewrite restore_all_no_backups by exact Hnone. reflexivity.
Qed.

(** ** Fetch, fetch again, restore *)

Lemma fs_finish_done cmd pr w :
  fs (finish (mkThread cmd pr (Some done)) w) = proc_run pr (fs w).
Proof. unfold finish, fn. cbn [th_proc th_done th_cmd]. now rewrite fs_call_done. Qed.

Lemma fetch_started env p r w pr :
  let path := p +:+ "/" +:+ n r in
  unblocked w path = true ->
  popen env (clone_command path (gitn r) (recursive r)) = PopenOk pr ->
  exists w',
    fetch env (Some done) p r w = Ok tt w'
    /\ fs w' = proc_run pr (fs (prepare_target_spec path w))
    /\ os w' = os (prepare_target_spec path w).
Proof.
  intros path Hu Hpopen. unfold fetch, bind.
  rewrite git_clone_unfold by exact Hu. fold path.
  unfold run_proc. rewrite Hpopen. unfold act, run_threads.
  cbn [opt_list fold_left].
  eexists. split; [reflexivity|].
  rewrite fs_finish_done. split; [reflexivity|].
  unfold finish, fn, call. cbn [th_proc th_done th_cmd]. now rewrite os_done.
Qed.

Lemma round_trip_fs env1 env2 p r w c1 ro2 es2 pr1 pr2 :
  let path := p +:+ "/" +:+ n r in
  fs w !! path = None ->
  fs w !! (path +:+ "_backup") = None ->
  popen env1 (clone_command path (gitn r) (recursive r)) = PopenOk pr1 ->
  (forall f, proc_run pr1 f = <[path := c1]> f) ->
  popen env2 (clone_command path (gitn r) (recursive r)) = PopenOk pr2 ->
  (forall f, proc_run pr2 f = <[path := Dir ro2 es2]> f) ->
  removable (os w) (Dir ro2 es2) = true ->
  exists w',
    round_trip env1 env2 (Some done) p r w = Ok tt w'
    /\ fs w' = <[path := c1]> (fs w).
Proof.
  intros path Hp Hb H1 E1 H2 E2 Hrm.
  assert (Hne : path +:+ "_backup" <> path) by apply backup_neq.
  unfold round_trip, bind.
  destruct (fetch_started env1 p r w pr1) as (w1 & -> & F1 & O1); [|exact H1|].
  { unfold unblocked. fold path. now rewrite Hb. }
  fold path in F1, O1. rewrite E1 in F1.
  assert (G1 : fs (prepare_target_spec path w) = fs w).
  { unfold prepare_target_spec. now rewrite Hp, Hp. }
  assert (Q1 : os (prepare_target_spec path w) = os w).
  { unfold prepare_target_spec. now rewrite Hp, Hp. }
  rewrite G1 in F1. rewrite Q1 in O1.
  assert (P1 : fs w1 !! path = Some c1) by (rewrite F1; apply lookup_insert_eq).
  assert (B1 : fs w1 !! (path +:+ "_backup") = None).
  { rewrite F1, lookup_insert_ne by congruence. exact Hb. }
  destruct (fetch_started env2 p r w1 pr2) as (w2 & -> & F2 & O2); [|exact H2|].
  { unfold unblocked. fold path. now rewrite B1. }
  fold path in F2, O2. rewrite E2 in F2.
  assert (G2 : fs (prepare_target_spec path w1)
               = <[path +:+ "_backup" := c1]> (delete path (fs w1))).
  { unfold prepare_target_spec. rewrite P1, B1. cbn.
    rewrite lookup_insert_ne by exact Hne. now rewrite lookup_delete_eq. }
  assert (Q2 : os (prepare_target_spec path w1) = os w1).
  { unfold prepare_target_spec. rewrite P1, B1. cbn.
    rewrite lookup_insert_ne by exact Hne. now rewrite lookup_delete_eq. }
  rewrite G2 in F2. rewrite Q2, O1 in O2.
  assert (B2 : fs w2 !! (path +:+ "_backup") = Some c1).
  { rewrite F2, lookup_insert_ne by congruence. apply lookup_insert_eq. }
  assert (D2 : removable_at w2 path = true).
  { unfold removable_at. rewrite F2, lookup_insert_eq, O2. exact Hrm. }
  destruct (restore_repo_backup p (n r) w2 c1 B2 D2) as (w3 & -> & F3 & _).
  exists w3. split; [reflexivity|].
  fold path in F3. rewrite F3, F2, F1.
  apply map_eq. intros k.
  destruct (decide (k = path)) as [->|Hk].
  - now rewrite !lookup_insert_eq.
  - rewrite !(lookup_insert_ne _ path k) by congruence.
    destruct (decide (k = path +:+ "_backup")) as [->|Hk'].
    + rewrite lookup_delete_eq. now rewrite Hb.
    + rewrite lookup_delete_ne by congruence.
      rewrite (lookup_insert_ne _ path k) by congruence.
      rewrite lookup_insert_ne by congruence.
      rewrite lookup_delete_ne by congruence.
      now rewrite (lookup_insert_ne _ path k) by congruence.
Qed.

(** C7 (amended): when neither the path nor its backup exists at the
    start, the first clone leaves [c1] and the second clone leaves a
    directory that [shutil.rmtree] with [remove_readonly] can remove
    again (on Windows: any directory), then after fetch, fetch, restore
    the path holds [c1], no backup is left, and the file system is the
    one after the first fetch. *)
Theorem round_trip_restores_first_clone env1 env2 p r w c1 ro2 es2 pr1 pr2 :
  fs w !! (p +:+ "/" +:+ n r) = None ->
  fs w !! ((p +:+ "/" +:+ n r) +:+ "_backup") = None ->
  popen env1 (clone_command (p +:+ "/" +:+ n r) (gitn r) (recursive r)) = PopenOk pr1 ->
  (forall f, proc_run pr1 f = <[p +:+ "/" +:+ n r := c1]> f) ->
  popen env2 (clone_command (p +:+ "/" +:+ n r) (gitn r) (recursive r)) = PopenOk pr2 ->
  (forall f, proc_run pr2 f = <[p +:+ "/" +:+ n r := Dir ro2 es2]> f) ->
  removable (os w) (Dir ro2 es2) = true ->
  round_trip_restores env1 env2 p r w c1
  /\ (exists w', round_trip env1 env2 (Some done) p r w = Ok tt w'
                 /\ fs w' = <[p +:+ "/" +:+ n r := c1]> (fs w)).
Proof.
  intros Hp Hb H1 E1 H2 E2 Hrm.
  destruct (round_trip_fs env1 env2 p r w c1 ro2 es2 pr1 pr2 Hp Hb H1 E1 H2 E2 Hrm)
    as (w' & Hrt & Hfs).
  split; [|now exists w'].
  exists w'. split; [exact Hrt|]. rewrite Hfs. split.
  - apply lookup_insert_eq.
  - rewrite lookup_insert_ne by (intros H; symmetry in H; revert H; apply backup_neq).
    exact Hb.
Qed.

(** C7 as stated fails when only the backup exists at the start: the
    path is absent, both clones succeed, and the restore brings back the
    older backup instead of the first clone. *)
Lemma round_trip_keeps_older_backup :
  fs w_stale_backup !! ("/sdk" +:+ "/" +:+ n armory) = None
  /\ ~ round_trip_restores (env_clone "git version 2.34.1" 0 "/sdk/armory" tree_v1)
         (env_clone "git version 2.34.1" 0 "/sdk/armory" tree_v2)
         "/sdk" armory w_stale_backup tree_v1.
Proof.
  split; [reflexivity|].
  intros (w' & Hrt & Hp & _).
  vm_compute in Hrt. injection Hrt as <-.
  vm_compute in Hp. discriminate.
Qed.

Lemma round_trip_restores_first_clone_witness :
  round_trip_restores (env_clone "git version 2.34.1" 0 "/sdk/armory" tree_v1)
    (env_clone "git version 2.34.1" 0 "/sdk/armory" tree_v2)
    "/sdk" armory w_empty tree_v1
  /\ round_trip_restores (env_clone "git version 2.34.1" 0 "/sdk/armory" tree_v1)
       (env_clone "git version 2.34.1" 0 "/sdk/armory" tree_old)
       "/sdk" armory (on_posix w_empty) tree_v1.
Proof.
  split.
  - refine (proj1 (round_trip_restores_first_clone
              (env_clone "git version 2.34.1" 0 "/sdk/armory" tree_v1)
              (env_clone "git version 2.34.1" 0 "/sdk/armory" tree_v2)
              "/sdk" armory w_empty tree_v1 true
              [(".git", Dir true [("pack", File true "2")]); ("v2.txt", File true "2")]
              (mkProcess 0 [fun f => <["/sdk/armory" := tree_v1]> f])
              (mkProcess 0 [fun f => <["/sdk/armory" := tree_v2]> f])
              _ _ _ _ _ _ _)); try reflexivity; intros f; reflexivity.
  - refine (proj1 (round_trip_restores_first_clone
              (env_clone "git version 2.34.1" 0 "/sdk/armory" tree_v1)
              (env_clone "git version 2.34.1" 0 "/sdk/armory" tree_old)
              "/sdk" armory (on_posix w_empty) tree_v1 false
              [("old.txt", File true "0")]
              (mkProcess 0 [fun f => <["/sdk/armory" := tree_v1]> f])
              (mkProcess 0 [fun f => <["/sdk/armory" := tree_old]> f])
              _ _ _ _ _ _ _)); try reflexivity; intros f; reflexivity.
Defined.

(** ** Observations along the trace *)

Lemma occurrences_snoc e tr x :
  occurrences e (tr ++ [x]) =
  (occurrences e tr + if decide (x = e) then 1 else 0)%nat.
Proof.
  unfold occurrences. rewrite filter_app, length_app.
  rewrite filter_cons, filter_nil. now destruct (decide (x = e)).
Qed.

Lemma calls_snoc tr x :
  calls (tr ++ [x]) = (calls tr ++ match x with EvCall z => [z] | _ => [] end)%list.
Proof. unfold calls. rewrite flat_map_app. cbn. now rewrite app_nil_r. Qed.

Lemma popen_attempts_snoc tr x :
  popen_attempts (tr ++ [x])
  = (popen_attempts tr ++ match x with EvPopen c _ => [c] | _ => [] end)%list.
Proof. unfold popen_attempts. rewrite flat_map_app. cbn. now rewrite app_nil_r. Qed.

Ltac obs_simpl :=
  cbn [trace repos_updated repos_total repos_done o_updated o_total o_done
       o_succeeded o_failed o_calls o_attempts].

Lemma observe_log_background e w : background e -> observe (log e w) = observe w.
Proof.
  intros (Hs & Hf & Hc & Hp). unfold observe, n_succeeded, n_failed, log.
  cbn [trace repos_updated repos_total repos_done].
  rewrite !occurrences_snoc, calls_snoc, popen_attempts_snoc.
  rewrite !decide_False by assumption. rewrite !Nat.add_0_r.
  destruct e; rewrite ?app_nil_r; try reflexivity.
  - exfalso. eapply Hp. reflexivity.
  - exfalso. eapply Hc. reflexivity.
Qed.

Lemma observe_set_fs f w : observe (set_fs f w) = observe w.
Proof. reflexivity. Qed.

Lemma observe_log_call z w : observe (log (EvCall z) w) = after_call z (observe w).
Proof.
  unfold observe, after_call, n_succeeded, n_failed, log.
  cbn [trace repos_updated repos_total repos_done o_updated o_total o_done
       o_succeeded o_failed o_calls o_attempts].
  rewrite !occurrences_snoc, calls_snoc, popen_attempts_snoc.
  rewrite !decide_False by discriminate.
  now rewrite !Nat.add_0_r, app_nil_r.
Qed.

Lemma observe_log_popen c b w :
  observe (log (EvPopen c b) w) = after_popen c (observe w).
Proof.
  unfold observe, after_popen, n_succeeded, n_failed, log.
  cbn [trace repos_updated repos_total repos_done o_updated o_total o_done
       o_succeeded o_failed o_calls o_attempts].
  rewrite !occurrences_snoc, calls_snoc, popen_attempts_snoc.
  rewrite !decide_False by discriminate.
  now rewrite !Nat.add_0_r, app_nil_r.
Qed.

Lemma observe_done e w : observe (done e w) = after_done e (observe w).
Proof.
  unfold done, after_done, observe, n_succeeded, n_failed, print, report, log,
    set_repos_done, set_repos_updated.
  destruct (e =? 0)%Z; obs_simpl;
    repeat match goal with
      | |- context [(?a =? ?b)%Z] => destruct (a =? b)%Z eqn:?; obs_simpl
      end;
    rewrite ?occurrences_snoc, ?calls_snoc, ?popen_attempts_snoc, ?app_nil_r;
    rewrite ?decide_True by reflexivity;
    rewrite ?decide_False by discriminate;
    rewrite ?Nat.add_0_r, ?Nat.add_1_r; reflexivity.
Qed.

Lemma background_print s :
  s <> succeeded_message -> background (EvPrint s).
Proof. intros H. repeat split; try discriminate; congruence. Qed.

Lemma background_fs_event e :
  match e with
  | EvMakedirs _ | EvChdir _ | EvRename _ _ | EvRmtree _ | EvProbe | EvWait _ _ => True
  | _ => False
  end -> background e.
Proof. destruct e; intros []; repeat split; discriminate. Qed.

Lemma running_command_not_signal cmd : running_command cmd <> succeeded_message.
Proof.
  unfold running_command. destruct cmd; cbn; discriminate.
Qed.

(** ** [run_proc] *)

Lemma observe_print s w :
  s <> succeeded_message -> observe (print s w) = observe w.
Proof. intros H. apply observe_log_background, background_print, H. Qed.

Lemma error_line_not_signal msg : "error: " +:+ msg <> succeeded_message.
Proof. cbn. discriminate. Qed.

Lemma error_words_not_signal msg :
  String.concat " " ["error:"; msg; newline] <> succeeded_message.
Proof. cbn. discriminate. Qed.

(** The prints that follow a failed [Popen] are no signals. *)
Ltac skip_prints :=
  repeat first
    [ rewrite observe_print by
        first [ apply running_command_not_signal
              | apply error_line_not_signal
              | apply error_words_not_signal
              | discriminate ]
    | progress cbn [fst snd] ].

Lemma run_proc_failed_observe env cmd d w :
  (forall pr, popen env cmd <> PopenOk pr) ->
  snd (run_proc env cmd (Some d) w) = None
  /\ exists w1,
       observe (fst (run_proc env cmd (Some d) w)) = observe w1
       /\ fs (fst (run_proc env cmd (Some d) w)) = fs w1
       /\ w1 = d 1 (log (EvCall 1) (log (EvPopen cmd false) w)).
Proof.
  intros Hfail. unfold run_proc.
  destruct (popen env cmd) as [errno msg|msg|pr].
  - split; [reflexivity|]. eexists. split; [|split; [|reflexivity]].
    + destruct (errno_is errno 12); [|destruct (errno_is errno 13)];
        skip_prints; reflexivity.
    + destruct (errno_is errno 12); [|destruct (errno_is errno 13)]; reflexivity.
  - split; [reflexivity|]. eexists. split; [|split; [|reflexivity]].
    + skip_prints. reflexivity.
    + reflexivity.
  - exfalso. exact (Hfail pr eq_refl).
Qed.

Lemma run_proc_started env cmd cb w pr :
  popen env cmd = PopenOk pr ->
  run_proc env cmd cb w = (log (EvPopen cmd true) w, Some (mkThread cmd pr cb)).
Proof. intros H. unfold run_proc. now rewrite H. Qed.

Lemma fn_unfold cmd pr d w :
  fn (mkThread cmd pr (Some d)) w
  = d 0 (log (EvCall 0) (log (EvWait cmd (exit_code pr)) w)).
Proof. reflexivity. Qed.

Lemma silent_done : silent done.
Proof.
  intros e w.
  change (o_calls (observe (done e w)) = o_calls (observe w)).
  now rewrite observe_done.
Qed.

(** [run_proc] applies its callback exactly once.  When [Popen] raises,
    the exception is caught, no thread is started and the callback is
    applied to 1 by [run_proc] itself, before the lines about the
    failure are printed; when the process starts, [run_proc] does not
    apply it: the waiter thread does, to 0, after [p.wait()] has
    returned and whatever the exit code is. *)
Lemma run_proc_callback env cmd d w :
  match popen env cmd with
  | PopenOk pr =>
      run_proc env cmd (Some d) w
      = (log (EvPopen cmd true) w, Some (mkThread cmd pr (Some d)))
      /\ forall w2,
           fn (mkThread cmd pr (Some d)) w2
           = d 0 (log (EvCall 0) (log (EvWait cmd (exit_code pr)) w2))
  | PopenOSError errno msg =>
      run_proc env cmd (Some d) w
      = (print (if errno_is errno 12
                then "Make sure there is enough space for the SDK (at least 500mb)"
                else if errno_is errno 13
                then "Permission denied, try modifying the permission of the sdk folder"
                else "error: " +:+ msg)
           (print (running_command cmd)
              (d 1 (log (EvCall 1) (log (EvPopen cmd false) w)))),
         None)
  | PopenException msg =>
      run_proc env cmd (Some d) w
      = (print (String.concat " " ["error:"; msg; newline])
           (print (running_command cmd)
              (d 1 (log (EvCall 1) (log (EvPopen cmd false) w)))),
         None)
  end.
Proof.
  unfold run_proc. destruct (popen env cmd) as [errno msg|msg|pr].
  - unfold call. destruct (errno_is errno 12); [|destruct (errno_is errno 13)];
      reflexivity.
  - reflexivity.
  - split; [reflexivity|]. intros w2. reflexivity.
Qed.

(** The entries of the callback as the trace records them: one entry,
    with 1, when [Popen] raises; none in [run_proc] and one, with 0, in
    the waiter thread when the process starts. *)
Lemma run_proc_calls env cmd d w :
  silent d ->
  match popen env cmd with
  | PopenOk pr =>
      calls (trace (fst (run_proc env cmd (Some d) w))) = calls (trace w)
      /\ forall w2,
           calls (trace (fn (mkThread cmd pr (Some d)) w2))
           = (calls (trace w2) ++ [0])%list
  | _ =>
      snd (run_proc env cmd (Some d) w) = None
      /\ calls (trace (fst (run_proc env cmd (Some d) w)))
         = (calls (trace w) ++ [1])%list
  end.
Proof.
  intros Hd. destruct (popen env cmd) as [errno msg|msg|pr] eqn:Hp.
  - destruct (run_proc_failed_observe env cmd d w) as (Hs & w1 & Ho & _ & ->).
    { intros pr. rewrite Hp. discriminate. }
    split; [exact Hs|].
    change (o_calls (observe (fst (run_proc env cmd (Some d) w)))
            = (calls (trace w) ++ [1])%list).
    rewrite Ho. cbn [observe o_calls]. rewrite Hd.
    cbn [log trace]. rewrite !calls_snoc. now rewrite app_nil_r.
  - destruct (run_proc_failed_observe env cmd d w) as (Hs & w1 & Ho & _ & ->).
    { intros pr. rewrite Hp. discriminate. }
    split; [exact Hs|].
    change (o_calls (observe (fst (run_proc env cmd (Some d) w)))
            = (calls (trace w) ++ [1])%list).
    rewrite Ho. cbn [observe o_calls]. rewrite Hd.
    cbn [log trace]. rewrite !calls_snoc. now rewrite app_nil_r.
  - rewrite (run_proc_started _ _ _ _ pr Hp). cbn [fst].
    split; [cbn [log trace]; rewrite calls_snoc; now rewrite app_nil_r|].
    intros w2. rewrite fn_unfold.
    rewrite Hd. cbn [log trace]. rewrite !calls_snoc. now rewrite app_nil_r.
Qed.

(** ** The batch: interleavings of launches and waiter threads *)

Lemma observe_os_rename a b w : observe (world_of (os_rename a b w)) = observe w.
Proof.
  unfold os_rename. destruct (fs w !! a); [|reflexivity].
  destruct (fs w !! b); [reflexivity|]. cbn [world_of].
  rewrite observe_log_background by (now apply background_fs_event).
  apply observe_set_fs.
Qed.

Lemma observe_shutil_rmtree path h w :
  observe (world_of (shutil_rmtree path h w)) = observe w.
Proof.
  unfold shutil_rmtree. destruct (rmtree_at (os w) h (fs w !! path)) as [o [e|]];
    cbn [world_of];
    (rewrite observe_log_background by (now apply background_fs_event));
    apply observe_set_fs.
Qed.

(** [git_clone] either raises while it prepares the target, or reaches
    [run_proc]; up to there nothing of what is observed has changed. *)
Lemma git_clone_cases env cb p gitn x rec w :
  (exists e w1, git_clone env cb p gitn x rec w = Raise e w1
                /\ observe w1 = observe w)
  \/ (exists w1,
        observe w1 = observe w
        /\ git_clone env cb p gitn x rec w =
           let '(w', t) := run_proc env (clone_command (p +:+ "/" +:+ x) gitn rec)
                             cb w1 in
           Ok t w').
Proof.
  unfold git_clone, bind, os_path_exists, ret.
  set (path := p +:+ "/" +:+ x).
  assert (Hrm : forall w0, observe w0 = observe w ->
    (exists e w1, shutil_rmtree path remove_readonly w0 = Raise e w1
                  /\ observe w1 = observe w)
    \/ (exists w1, shutil_rmtree path remove_readonly w0 = Ok tt w1
                   /\ observe w1 = observe w)).
  { intros w0 H0. pose proof (observe_shutil_rmtree path remove_readonly w0) as H.
    destruct (shutil_rmtree path remove_readonly w0) as [[] w1|e w1];
      cbn [world_of] in H; [right|left]; eauto using eq_trans. }
  assert (Hgo : forall w0, observe w0 = observe w ->
    (exists e w1,
        match (if match fs w0 !! path with Some _ => true | None => false end
               then shutil_rmtree path remove_readonly else fun w => Ok tt w) w0
        with
        | Ok _ w' => (let '(w'', t) := run_proc env (clone_command path gitn rec) cb w' in
                      Ok t w'')
        | Raise e w' => Raise e w'
        end = Raise e w1 /\ observe w1 = observe w)
    \/ (exists w1, observe w1 = observe w /\
        match (if match fs w0 !! path with Some _ => true | None => false end
               then shutil_rmtree path remove_readonly else fun w => Ok tt w) w0
        with
        | Ok _ w' => (let '(w'', t) := run_proc env (clone_command path gitn rec) cb w' in
                      Ok t w'')
        | Raise e w' => Raise e w'
        end = (let '(w', t) := run_proc env (clone_command path gitn rec) cb w1 in
               Ok t w'))).
  { intros w0 H0. destruct (fs w0 !! path).
    - destruct (Hrm w0 H0) as [(e & w1 & -> & H1)|(w1 & -> & H1)];
        [left|right]; eauto.
    - right. eauto. }
  destruct (_ && _).
  - pose proof (observe_os_rename path (path +:+ "_backup") w) as H.
    destruct (os_rename _ _ w) as [[] w1|e w1]; cbn [world_of] in H.
    + apply Hgo, H.
    + left. eauto.
  - apply Hgo. reflexivity.
Qed.

Lemma observe_fn_done cmd pr w :
  observe (fn (mkThread cmd pr (Some done)) w)
  = after_done 0 (after_call 0 (observe w)).
Proof.
  rewrite fn_unfold, observe_done, observe_log_call.
  now rewrite observe_log_background by (now apply background_fs_event).
Qed.

(** What one [git_clone] call of the batch does to the observation. *)
Lemma git_clone_done_observe env p r w :
  (exists e w', git_clone env (Some done) p (gitn r) (n r) (recursive r) w = Raise e w'
                /\ observe w' = observe w)
  \/ (exists w' pr,
        git_clone env (Some done) p (gitn r) (n r) (recursive r) w
        = Ok (Some (mkThread (command_of p r) pr (Some done))) w'
        /\ observe w' = after_popen (command_of p r) (observe w))
  \/ (exists w',
        git_clone env (Some done) p (gitn r) (n r) (recursive r) w = Ok None w'
        /\ observe w'
           = after_done 1 (after_call 1 (after_popen (command_of p r) (observe w)))).
Proof.
  unfold command_of, path_of.
  set (cmd := clone_command (p +:+ "/" +:+ n r) (gitn r) (recursive r)).
  destruct (git_clone_cases env (Some done) p (gitn r) (n r) (recursive r) w)
    as [(e & w1 & H & Ho)|(w1 & Ho & H)]; [left; eauto|right].
  rewrite H. fold cmd. clear H.
  assert (Hfail : (forall pr, popen env cmd <> PopenOk pr) ->
    exists w', (let '(w', t) := run_proc env cmd (Some done) w1 in Ok t w')
               = Ok None w'
               /\ observe w' = after_done 1 (after_call 1 (after_popen cmd (observe w)))).
  { intros Hp.
    pose proof (run_proc_failed_observe env cmd done w1 Hp) as HH.
    revert HH.
    generalize (run_proc env cmd (Some done) w1). intros [w' t].
    cbn [fst snd]. intros (Hs & w2 & Hobs & _ & ->).
    rewrite Hs. exists w'. split; [reflexivity|].
    now rewrite Hobs, observe_done, observe_log_call, observe_log_popen, Ho. }
  destruct (popen env cmd) as [errno msg|msg|pr] eqn:Hp.
  - right. apply Hfail. discriminate.
  - right. apply Hfail. discriminate.
  - left. rewrite (run_proc_started _ _ _ _ pr Hp).
    eexists _, pr. split; [reflexivity|].
    now rewrite observe_log_popen, Ho.
Qed.

Ltac split_eqb :=
  repeat match goal with
    | |- context [(?a =? ?b)%Z] => destruct (Z.eqb_spec a b)
    | H : context [(?a =? ?b)%Z] |- _ => destruct (Z.eqb_spec a b)
    end.

Lemma batch_invariant_start w :
  batch_invariant (observe (reset_counters w)) (batch_start w).
Proof.
  unfold batch_invariant, batch_start. cbn [cw main pending].
  repeat split; cbn; try lia; try tauto.
Qed.

Lemma batch_invariant_step env p o0 c c' :
  batch_invariant o0 c -> step env p c c' -> batch_invariant o0 c'.
Proof.
  intros (Ht & Hu & Hp & Hm & Hs & Hf & Hc) Hstep.
  unfold batch_invariant.
  destruct Hstep as [r rs ts w t w' Hg|r rs ts w e w' Hg
                    |m ts1 t wr rest ts2 w Hw|m ts1 t ts2 w Hw];
    cbn [cw main pending] in *.
  - destruct (git_clone_done_observe env p r w)
      as [(e & w1 & H & _)|[(w1 & pr & H & Ho)|(w1 & H & Ho)]];
      rewrite H in Hg; [discriminate| |]; injection Hg as <- <-; rewrite Ho.
    + unfold after_popen. obs_simpl. cbn [opt_list].
      rewrite length_app. cbn [length] in *.
      repeat split; try lia; try assumption.
      intros t Hin. apply in_app_or in Hin as [Hin|[<-|[]]]; [now apply Hp|reflexivity].
    + unfold after_done, after_call, after_popen. obs_simpl.
      cbn [opt_list Z.eqb]. rewrite app_nil_r, ?length_app. cbn [length] in *.
      rewrite Ht in *.
      repeat split; try assumption; split_eqb; cbn [andb negb] in *; lia.
  - destruct (git_clone_done_observe env p r w)
      as [(e' & w1 & H & Ho)|[(w1 & pr & H & _)|(w1 & H & _)]];
      rewrite H in Hg; try discriminate. injection Hg as <- <-. rewrite Ho.
    cbn [length] in *. repeat split; try assumption; lia.
  - rewrite observe_set_fs. rewrite !length_app in *. cbn [length] in *.
    repeat split; try assumption; try lia.
    intros t0 Hin. apply in_app_or in Hin as [Hin|[<-|Hin]].
    + apply Hp, in_or_app. now left.
    + cbn [waiting_for th_done]. apply Hp, in_or_app. right. now left.
    + apply Hp, in_or_app. right. now right.
  - assert (Hd : th_done t = Some done) by (apply Hp, in_or_app; right; now left).
    destruct t as [cmd pr cb]. cbn [th_done] in Hd. subst cb.
    rewrite observe_fn_done.
    unfold after_done, after_call. obs_simpl. cbn [Z.eqb].
    rewrite !length_app in *. cbn [length] in *. rewrite Ht in *.
    repeat split;
      try (intros t Hin; apply Hp;
           apply in_app_or in Hin as [Hin|Hin]; apply in_or_app;
           [now left|right; now right]);
      destruct m; split_eqb; cbn [andb negb] in *; lia.
Qed.

Lemma batch_invariant_steps env p w c :
  steps env p (batch_start w) c ->
  batch_invariant (observe (reset_counters w)) c.
Proof.
  intros H. remember (batch_start w) as c0 eqn:E.
  induction H as [c|c1 c2 c3 H12 IH H23]; subst.
  - apply batch_invariant_start.
  - eapply batch_invariant_step; [apply IH; reflexivity|exact H23].
Qed.

(** ** Schedules *)

Lemma steps_one env p c1 c2 : step env p c1 c2 -> steps env p c1 c2.
Proof. intros H. eapply steps_more; [apply steps_refl|exact H]. Qed.

Lemma steps_trans env p c1 c2 c3 :
  steps env p c1 c2 -> steps env p c2 c3 -> steps env p c1 c3.
Proof.
  intros H12 H23. induction H23 as [|c2 c3 c4 _ IH H34]; [exact H12|].
  eapply steps_more; [apply IH, H12|exact H34].
Qed.

(** The launching thread running on its own is one of the schedules. *)
Lemma launch_steps env p rs : forall ts0 w ts w',
  launch env (Some done) p rs w = Ok ts w' ->
  steps env p (mkConfig (Launching rs) ts0 w)
              (mkConfig (Launching []) (ts0 ++ ts) w').
Proof.
  induction rs as [|r rs IH]; intros ts0 w ts w' H.
  - cbn in H. injection H as <- <-. rewrite app_nil_r. apply steps_refl.
  - cbn [launch] in H. unfold bind in H.
    destruct (git_clone env (Some done) p (gitn r) (n r) (recursive r) w)
      as [t w1|e w1] eqn:Hg; [|discriminate].
    destruct (launch env (Some done) p rs w1) as [ts' w2|e w2] eqn:Hl;
      [|discriminate].
    cbn [ret] in H. injection H as <- <-.
    eapply steps_trans; [apply steps_one, step_launch, Hg|].
    replace (ts0 ++ match t with Some t0 => t0 :: ts' | None => ts' end)%list
      with ((ts0 ++ opt_list t) ++ ts')%list
      by (destruct t; cbn; now rewrite <- ?app_assoc, ?app_nil_r).
    apply IH, Hl.
Qed.

(** A [git_clone] call that raises ends the launching thread. *)
Lemma launch_crash_steps env p rs : forall ts0 w e w',
  launch env (Some done) p rs w = Raise e w' ->
  exists ts, steps env p (mkConfig (Launching rs) ts0 w)
                         (mkConfig (Crashed e) ts w').
Proof.
  induction rs as [|r rs IH]; intros ts0 w e w' H; [discriminate|].
  cbn [launch] in H. unfold bind in H.
  destruct (git_clone env (Some done) p (gitn r) (n r) (recursive r) w)
    as [t w1|e1 w1] eqn:Hg.
  - destruct (launch env (Some done) p rs w1) as [ts' w2|e2 w2] eqn:Hl;
      [discriminate|].
    injection H as <- <-.
    destruct (IH (ts0 ++ opt_list t)%list w1 e2 w2 Hl) as [ts Hs].
    exists ts. eapply steps_trans; [apply steps_one, step_launch, Hg|exact Hs].
  - injection H as <- <-. exists ts0. apply steps_one, step_crash, Hg.
Qed.

(** So is the one in which each process makes its writes and ends, and
    its waiter thread finishes, one after the other. *)
Lemma write_steps env p m ts1 ts2 cmd code d : forall writes w,
  steps env p
    (mkConfig m (ts1 ++ mkThread cmd (mkProcess code writes) d :: ts2) w)
    (mkConfig m (ts1 ++ mkThread cmd (mkProcess code []) d :: ts2)
       (set_fs (fun f => fold_left (fun f (wr : write) => wr f) writes f) w)).
Proof.
  induction writes as [|wr rest IH]; intros w.
  - destruct w. apply steps_refl.
  - eapply steps_trans.
    + apply steps_one.
      exact (step_write env p m ts1 (mkThread cmd (mkProcess code (wr :: rest)) d)
               wr rest ts2 w eq_refl).
    + exact (IH (set_fs wr w)).
Qed.

Lemma finish_steps env p m ts1 t ts2 w :
  steps env p (mkConfig m (ts1 ++ t :: ts2) w)
              (mkConfig m (ts1 ++ ts2) (finish t w)).
Proof.
  destruct t as [cmd [code writes] d].
  eapply steps_trans; [apply write_steps|].
  apply steps_one.
  exact (step_thread env p m ts1 (mkThread cmd (mkProcess code []) d) ts2 _ eq_refl).
Qed.

Lemma run_threads_steps env p m ts : forall w,
  steps env p (mkConfig m ts w) (mkConfig m [] (run_threads ts w)).
Proof.
  induction ts as [|t ts IH]; intros w; [apply steps_refl|].
  eapply steps_trans; [|apply IH].
  exact (finish_steps env p m [] t ts w).
Qed.

Lemma launch_then_wait_steps env p w ts w' :
  launch env (Some done) p repos (reset_counters w) = Ok ts w' ->
  steps env p (batch_start w) (mkConfig (Launching []) [] (run_threads ts w')).
Proof.
  intros H. eapply steps_trans.
  - apply (launch_steps env p repos [] _ _ _ H).
  - apply run_threads_steps.
Qed.

Lemma final_world_steps env p w :
  launches env p w ->
  steps env p (batch_start w) (mkConfig (Launching []) [] (final_world env p w)).
Proof.
  unfold launches, final_world.
  destruct (launch env (Some done) p repos (reset_counters w)) as [ts w'|e w'] eqn:H;
    [|intros []].
  intros _. now apply launch_then_wait_steps.
Qed.


(** ** C1 and C3: the counters and the aggregate signals *)






(** C1 and C3 are about a batch on its own.  A second call of
    [download_sdk] made while the nine waiter threads of an earlier call
    are still blocked resets the counters under them: the nine callbacks
    of the earlier call then bring [repos_updated] to [repos_total] and
    the "completed" line is printed although none of the second call's
    clones has reported, and with all eighteen callbacks entered
    [repos_done] is 18, twice [repos_total]; no two callbacks overlap. *)
Lemma earlier_waiters_break_the_count :
  let '(w2, ts1, ts2) := two_batches env_all_cloned "/sdk" w_empty in
  length ts1 = 9%nat /\ length ts2 = 9%nat
  /\ n_succeeded (run_threads ts1 w2) = 1%nat
  /\ repos_done (run_threads (ts1 ++ ts2) w2) = 18
  /\ repos_updated (run_threads (ts1 ++ ts2) w2) = 18
  /\ repos_total (run_threads (ts1 ++ ts2) w2) = 9
  /\ n_succeeded (run_threads (ts1 ++ ts2) w2) = 1%nat
  /\ n_failed (run_threads (ts1 ++ ts2) w2) = 0%nat.
Proof. vm_compute. repeat split. Qed.

(** ** [git_test] *)

Lemma git_test_fails env w :
  probe_fails env ->
  git_test env w
  = Ok false
      (match git_version env with
       | ProbeRaises msg => print msg
       | ProbeOutput _ => fun w => w
       end (log EvProbe (print "Testing if git is working..." w))).
Proof.
  unfold probe_fails, git_test, bind, act, ret.
  destruct (git_version env) as [msg|output]; [reflexivity|].
  intros (s & -> & ->). reflexivity.
Qed.

Lemma git_test_succeeds env w :
  probe_succeeds env ->
  git_test env w
  = Ok true (print "Test succeeded."
               (log EvProbe (print "Testing if git is working..." w))).
Proof.
  intros (output & s & Hv & Hd & Hm). unfold git_test, bind, act, ret.
  now rewrite Hv, Hd, Hm.
Qed.

(** Output that is not valid UTF-8 is neither: the exception of [decode]
    leaves [git_test]. *)
Lemma git_test_undecodable env w output :
  git_version env = ProbeOutput output ->
  decode output = None ->
  git_test env w
  = Raise UnicodeDecodeError (log EvProbe (print "Testing if git is working..." w)).
Proof.
  intros Hv Hd. unfold git_test, bind, act, ret, raise. now rewrite Hv, Hd.
Qed.

(** ** What the pattern of [git_test] accepts *)

Lemma re_match_one cs p s :
  re_match (One cs :: p) s = true
  <-> exists c s', s = c :: s' /\ in_charset cs c = true /\ re_match p s' = true.
Proof.
  destruct s as [|c s']; cbn [re_match].
  - split; [discriminate|]. intros (c & s' & H & _). discriminate.
  - rewrite andb_true_iff. split.
    + intros [H1 H2]. now exists c, s'.
    + intros (c0 & s0 & [= -> ->] & H1 & H2). now split.
Qed.

Lemma re_match_plus cs p s :
  re_match (OneOrMore cs :: p) s = true
  <-> exists d rest,
        d <> [] /\ forallb (in_charset cs) d = true
        /\ s = (d ++ rest)%list /\ re_match p rest = true.
Proof.
  induction s as [|c s IH].
  - cbn. split; [discriminate|].
    intros (d & rest & Hd & _ & Hs & _). destruct d; [contradiction|discriminate].
  - change (re_match (OneOrMore cs :: p) (c :: s))
      with (in_charset cs c && (re_match (OneOrMore cs :: p) s || re_match p s)).
    rewrite andb_true_iff, orb_true_iff, IH. split.
    + intros [Hc [(d & rest & Hd & Hall & -> & Hr)|Hr]].
      * exists (c :: d), rest. cbn [forallb]. rewrite Hc, Hall. now repeat split.
      * exists [c], s. cbn [forallb]. rewrite Hc. now repeat split.
    + intros (d & rest & Hd & Hall & Hs & Hr).
      destruct d as [|c0 d]; [contradiction|].
      cbn [forallb] in Hall. apply andb_true_iff in Hall as [Hc Hall].
      injection Hs as -> ->. split; [exact Hc|].
      destruct d as [|c1 d]; [now right|].
      left. exists (c1 :: d), rest. repeat split; try assumption. discriminate.
Qed.

Lemma re_match_literal l p s :
  re_match (map (fun c => One (Chr c)) l ++ p) s = true
  <-> exists s', s = (l ++ s')%list /\ re_match p s' = true.
Proof.
  revert s. induction l as [|c l IH]; intros s; cbn [map app].
  - split; [intros H; now exists s|intros (s' & -> & H); exact H].
  - rewrite re_match_one. split.
    + intros (c0 & s0 & -> & Hc & H). apply N.eqb_eq in Hc as ->.
      apply IH in H as (s' & -> & H). now exists s'.
    + intros (s' & -> & H). exists c, (l ++ s')%list.
      split; [reflexivity|]. split; [apply N.eqb_refl|].
      apply IH. now exists s'.
Qed.

(** The decoded output is accepted exactly when it starts with
    [git version ], a non-empty run of digits, any character but a
    newline, digits, any character but a newline, digits. *)
Lemma git_version_re_accepts s :
  re_match git_version_re s = true
  <-> exists d1 c1 d2 c2 d3 rest,
        s = (code_points "git version " ++ d1 ++ c1 :: d2 ++ c2 :: d3 ++ rest)%list
        /\ d1 <> [] /\ d2 <> [] /\ d3 <> []
        /\ forallb (in_charset digit) d1 = true
        /\ forallb (in_charset digit) d2 = true
        /\ forallb (in_charset digit) d3 = true
        /\ c1 <> 10%N /\ c2 <> 10%N.
Proof.
  unfold git_version_re. rewrite re_match_literal. split.
  - intros (s0 & -> & H).
    apply re_match_plus in H as (d1 & r1 & Hd1 & Ha1 & -> & H).
    apply re_match_one in H as (c1 & r2 & -> & Hc1 & H).
    apply re_match_plus in H as (d2 & r3 & Hd2 & Ha2 & -> & H).
    apply re_match_one in H as (c2 & r4 & -> & Hc2 & H).
    apply re_match_plus in H as (d3 & rest & Hd3 & Ha3 & -> & _).
    exists d1, c1, d2, c2, d3, rest.
    cbn [in_charset] in Hc1, Hc2.
    apply negb_true_iff, N.eqb_neq in Hc1. apply negb_true_iff, N.eqb_neq in Hc2.
    repeat split; assumption.
  - intros (d1 & c1 & d2 & c2 & d3 & rest & -> & Hd1 & Hd2 & Hd3 & Ha1 & Ha2 & Ha3
            & Hc1 & Hc2).
    eexists. split; [reflexivity|].
    apply re_match_plus. exists d1, (c1 :: d2 ++ c2 :: d3 ++ rest)%list.
    repeat split; try assumption.
    apply re_match_one. exists c1, (d2 ++ c2 :: d3 ++ rest)%list.
    split; [reflexivity|]. split; [now apply negb_true_iff, N.eqb_neq|].
    apply re_match_plus. exists d2, (c2 :: d3 ++ rest)%list.
    repeat split; try assumption.
    apply re_match_one. exists c2, (d3 ++ rest)%list.
    split; [reflexivity|]. split; [now apply negb_true_iff, N.eqb_neq|].
    apply re_match_plus. exists d3, rest. now repeat split.
Qed.

(** C8 (as the code behaves): the pattern of [git_test] has unescaped
    dots, so an output without any dot after [git version] is accepted. *)
Theorem git_test_accepts_undotted_version po w :
  git_test (mkEnv (ProbeOutput (bytes "git version 12345")) po) w
  = Ok true (print "Test succeeded."
               (log EvProbe (print "Testing if git is working..." w)))
  /\ git_test (mkEnv (ProbeOutput (bytes "git version 2x34y1")) po) w
     = Ok true (print "Test succeeded."
                  (log EvProbe (print "Testing if git is working..." w))).
Proof. split; reflexivity. Qed.

(** ** [get_sdk_path] and the start of [download_sdk] *)

Lemma get_fp_examples :
  get_fp (mkContext "/home/user/game/level.blend" EmptyString "/"%char)
  = "/home/user/game"
  /\ get_fp (mkContext "level.blend" EmptyString "/"%char) = EmptyString
  /\ get_fp (mkContext EmptyString "/sdk" "/"%char) = EmptyString.
Proof. repeat split. Qed.

(** A project-local [armsdk] directory takes precedence over the
    preference. *)
Lemma get_sdk_path_local ctx w t :
  fs w !! (get_fp ctx +:+ "/armsdk") = Some t ->
  get_sdk_path ctx w = Ok (get_fp ctx +:+ "/armsdk") w.
Proof. intros H. unfold get_sdk_path, bind, os_path_exists. now rewrite H. Qed.

Lemma get_sdk_path_pref ctx w :
  fs w !! (get_fp ctx +:+ "/armsdk") = None ->
  get_sdk_path ctx w = Ok (sdk_path_pref ctx) w.
Proof. intros H. unfold get_sdk_path, bind, os_path_exists. now rewrite H. Qed.

Lemma download_sdk_no_path env ctx w :
  get_sdk_path ctx w = Ok EmptyString w ->
  download_sdk env ctx w
  = Ok (Some CANCELLED, []) (report ERROR "Configure Armory SDK path first" w).
Proof. intros H. unfold download_sdk, bind. now rewrite H. Qed.

Lemma download_sdk_unfold env ctx w sp :
  get_sdk_path ctx w = Ok sp w ->
  sp <> EmptyString ->
  no_file_at (fs w) sp ->
  download_sdk env ctx w =
    match git_test env (match fs w !! sp with
                        | None => entered_new_root sp w
                        | Some _ => entered_old_root sp w
                        end) with
    | Raise e w2 => Raise e w2
    | Ok false w2 =>
        Ok (Some CANCELLED, [])
           (report ERROR git_failed_message (print git_failed_message w2))
    | Ok true w2 =>
        match launch env (Some done) sp repos (reset_counters w2) with
        | Ok ts w3 => Ok (None, ts) w3
        | Raise e w3 => Raise e w3
        end
    end.
Proof.
  intros Hsp Hne Hdir. unfold download_sdk, bind. rewrite Hsp.
  apply String.eqb_neq in Hne. rewrite Hne.
  unfold act, os_path_exists, report, print. cbn [fs log].
  destruct (fs w !! sp) as [t|] eqn:Hl; cbn [negb].
  - destruct t as [ro d|ro es]; [exfalso; exact (Hdir ro d Hl)|].
    unfold ret at 1. unfold os_chdir. cbn [fs log]. rewrite Hl.
    unfold entered_old_root, print, report.
    destruct (git_test env _) as [[|] w2|e w2]; reflexivity.
  - unfold os_makedirs. cbn [fs log]. rewrite Hl.
    unfold os_chdir. cbn [fs log set_fs]. rewrite lookup_insert_eq.
    unfold entered_new_root, print, report.
    destruct (git_test env _) as [[|] w2|e w2]; reflexivity.
Qed.

(** What [download_sdk] does after a successful probe is one schedule of
    the batch: the launching thread runs alone. *)
Lemma download_sdk_runs_batch env ctx w sp ts w' :
  get_sdk_path ctx w = Ok sp w ->
  sp <> EmptyString ->
  no_file_at (fs w) sp ->
  download_sdk env ctx w = Ok (None, ts) w' ->
  exists w1, steps env sp (batch_start w1) (mkConfig (Launching []) ts w').
Proof.
  intros Hsp Hne Hdir. rewrite (download_sdk_unfold env ctx w sp Hsp Hne Hdir).
  destruct (git_test env _) as [[|] w1|e w1]; try discriminate.
  destruct (launch env (Some done) sp repos (reset_counters w1))
    as [ts1 w2|e w2] eqn:Hl; [|discriminate].
  intros [= <- <-]. exists w1.
  exact (launch_steps env sp repos [] _ _ _ Hl).
Qed.


Lemma run_proc_done_fs env cmd w :
  fs (fst (run_proc env cmd (Some done) w)) = fs w.
Proof.
  destruct (popen env cmd) as [errno msg|msg|pr] eqn:Hp.
  - destruct (run_proc_failed_observe env cmd done w) as (_ & w1 & _ & -> & ->).
    + intros pr. rewrite Hp. discriminate.
    + now rewrite fs_done.
  - destruct (run_proc_failed_observe env cmd done w) as (_ & w1 & _ & -> & ->).
    + intros pr. rewrite Hp. discriminate.
    + now rewrite fs_done.
  - now rewrite (run_proc_started _ _ _ _ pr Hp).
Qed.

Lemma probe_succeeds_example po :
  probe_succeeds (mkEnv (ProbeOutput (bytes "git version 2.34.1")) po).
Proof. eexists _, _. split; [reflexivity|]. split; reflexivity. Qed.


Lemma os_run_proc_done env cmd w :
  os (fst (run_proc env cmd (Some done) w)) = os w.
Proof.
  unfold run_proc. destruct (popen env cmd) as [errno msg|msg|pr]; cbn [fst].
  - destruct (errno_is errno 12); [|destruct (errno_is errno 13)];
      unfold call, print; cbn [os log]; now rewrite os_done.
  - unfold call, print. cbn [os log]. now rewrite os_done.
  - reflexivity.
Qed.

(** ** The file system after [git_clone] and after [restore_repo] *)

Lemma world_of_run_proc env cmd cb w :
  world_of (let '(w', t) := run_proc env cmd cb w in Ok t w')
  = fst (run_proc env cmd cb w).
Proof. now destruct (run_proc env cmd cb w). Qed.

Lemma backup_neq' (s : string) : s <> s +:+ "_backup".
Proof. intros H. symmetry in H. revert H. apply backup_neq. Qed.

Lemma fs_shutil_rmtree path w :
  fs (world_of (shutil_rmtree path remove_readonly w))
  = after_rmtree (os w) path (fs w).
Proof.
  unfold shutil_rmtree, after_rmtree.
  destruct (rmtree_at (os w) remove_readonly (fs w !! path)) as [[n'|] [e|]];
    reflexivity.
Qed.

Lemma os_shutil_rmtree path h w :
  os (world_of (shutil_rmtree path h w)) = os w.
Proof.
  unfold shutil_rmtree.
  destruct (rmtree_at (os w) h (fs w !! path)) as [o [e|]]; reflexivity.
Qed.

Lemma after_rmtree_other pf path f k :
  k <> path -> after_rmtree pf path f !! k = f !! k.
Proof.
  intros Hk. unfold after_rmtree.
  destruct (fst (rmtree_at pf remove_readonly (f !! path))).
  - now rewrite lookup_insert_ne by congruence.
  - now rewrite lookup_delete_ne by congruence.
Qed.

Lemma after_rmtree_removable pf path f t :
  f !! path = Some t -> removable pf t = true ->
  after_rmtree pf path f = delete path f.
Proof.
  intros Hp Hr. unfold after_rmtree. rewrite Hp.
  now rewrite (rmtree_removable _ _ Hr).
Qed.

Lemma after_rmtree_stuck pf path f t :
  f !! path = Some t -> removable pf t = false ->
  exists n', after_rmtree pf path f = <[path := n']> f.
Proof.
  intros Hp Hr. unfold after_rmtree. rewrite Hp.
  destruct (rmtree_stuck _ _ Hr) as [n' ->]. now exists n'.
Qed.

Lemma git_clone_fs env p g x rec w :
  fs (world_of (git_clone env (Some done) p g x rec w))
  = prepare_fs (os w) (p +:+ "/" +:+ x) (fs w).
Proof.
  unfold git_clone, prepare_fs, bind, os_path_exists, ret.
  set (path := p +:+ "/" +:+ x).
  destruct (fs w !! path) as [t|] eqn:Hp;
    destruct (fs w !! (path +:+ "_backup")) as [b|] eqn:Hb; cbn [andb negb].
  - rewrite Hp. pose proof (fs_shutil_rmtree path w) as Hfs.
    destruct (shutil_rmtree path remove_readonly w) as [[] w1|e w1];
      cbn [world_of] in *; [|exact Hfs].
    rewrite world_of_run_proc, run_proc_done_fs. exact Hfs.
  - unfold os_rename. rewrite Hp, Hb. cbn [fs log set_fs].
    rewrite lookup_insert_ne by apply backup_neq. rewrite lookup_delete_eq.
    rewrite world_of_run_proc. now rewrite run_proc_done_fs.
  - rewrite Hp, world_of_run_proc. now rewrite run_proc_done_fs.
  - rewrite Hp, world_of_run_proc. now rewrite run_proc_done_fs.
Qed.

Lemma os_git_clone env p g x rec w :
  os (world_of (git_clone env (Some done) p g x rec w)) = os w.
Proof.
  unfold git_clone, bind, os_path_exists, ret.
  set (path := p +:+ "/" +:+ x).
  assert (Hgo : forall w0, os w0 = os w ->
    os (world_of
          (match (if match fs w0 !! path with Some _ => true | None => false end
                  then shutil_rmtree path remove_readonly else fun w => Ok tt w) w0
           with
           | Ok _ w' =>
               (let '(w'', t) := run_proc env (clone_command path g rec)
                                   (Some done) w' in Ok t w'')
           | Raise e w' => Raise e w'
           end)) = os w).
  { intros w0 H0. destruct (fs w0 !! path).
    - pose proof (os_shutil_rmtree path remove_readonly w0) as H.
      destruct (shutil_rmtree path remove_readonly w0) as [[] w1|e w1];
        cbn [world_of] in *; [|congruence].
      rewrite world_of_run_proc, os_run_proc_done. congruence.
    - rewrite world_of_run_proc, os_run_proc_done. exact H0. }
  destruct (_ && _).
  - unfold os_rename. destruct (fs w !! path); [|reflexivity].
    destruct (fs w !! (path +:+ "_backup")); [reflexivity|].
    apply Hgo. reflexivity.
  - apply Hgo. reflexivity.
Qed.

Lemma restore_repo_fs p x w :
  fs (world_of (restore_repo p x w)) = restore_fs (os w) (p +:+ "/" +:+ x) (fs w).
Proof.
  unfold restore_repo, restore_fs, bind, os_path_exists, ret.
  rewrite restore_backup_path. set (path := p +:+ "/" +:+ x).
  destruct (fs w !! (path +:+ "_backup")) as [b|] eqn:Hb; [|reflexivity].
  destruct (fs w !! path) as [t|] eqn:Hp.
  - destruct (removable (os w) t) eqn:Hr.
    + rewrite (shutil_rmtree_removable path w t Hp Hr).
      unfold os_rename. cbn [fs log set_fs].
      rewrite lookup_delete_ne
        by (intros H; symmetry in H; revert H; apply backup_neq).
      rewrite Hb, lookup_delete_eq. cbn [world_of fs log set_fs].
      now rewrite (delete_delete _ (path +:+ "_backup") path), insert_delete_eq.
    + pose proof (fs_shutil_rmtree path w) as Hfs.
      destruct (shutil_rmtree_stuck path w t Hp Hr) as [n' Hs].
      rewrite Hs in *. exact Hfs.
  - unfold os_rename. rewrite Hb, Hp. reflexivity.
Qed.

Lemma os_restore_repo p x w : os (world_of (restore_repo p x w)) = os w.
Proof.
  unfold restore_repo, bind, os_path_exists, ret.
  destruct (fs w !! _); [|reflexivity].
  assert (Hren : forall w0, os w0 = os w ->
            os (world_of (os_rename (p +:+ "/" +:+ x +:+ "_backup")
                            (p +:+ "/" +:+ x) w0)) = os w).
  { intros w0 H0. unfold os_rename. destruct (fs w0 !! _); [|exact H0].
    destruct (fs w0 !! _); exact H0. }
  destruct (fs w !! (p +:+ "/" +:+ x)).
  - pose proof (os_shutil_rmtree (p +:+ "/" +:+ x) remove_readonly w) as H.
    destruct (shutil_rmtree _ _ w) as [[] w1|e w1]; cbn [world_of] in *;
      [now apply Hren|exact H].
  - now apply Hren.
Qed.

Lemma prepare_fs_other pf path f k :
  k <> path -> k <> path +:+ "_backup" -> prepare_fs pf path f !! k = f !! k.
Proof.
  intros H1 H2. unfold prepare_fs.
  destruct (f !! path) as [t|]; [|reflexivity].
  destruct (f !! (path +:+ "_backup")).
  - now apply after_rmtree_other.
  - rewrite lookup_insert_ne by congruence.
    now rewrite lookup_delete_ne by congruence.
Qed.

Lemma prepare_fs_backup pf path f :
  prepare_fs pf path f !! (path +:+ "_backup")
  = match f !! (path +:+ "_backup") with
    | Some b => Some b
    | None => f !! path
    end.
Proof.
  unfold prepare_fs.
  destruct (f !! path) as [t|] eqn:Hp;
    destruct (f !! (path +:+ "_backup")) as [b|] eqn:Hb; try congruence.
  - rewrite after_rmtree_other by apply backup_neq. exact Hb.
  - apply lookup_insert_eq.
Qed.

(** The target is clear for the clone when the removal, if one was
    needed, went through. *)
Lemma prepare_fs_target pf path f :
  (is_Some (f !! (path +:+ "_backup")) ->
   forall t, f !! path = Some t -> removable pf t = true) ->
  prepare_fs pf path f !! path = None.
Proof.
  intros Hdir. unfold prepare_fs.
  destruct (f !! path) as [t|] eqn:Hp; [|exact Hp].
  destruct (f !! (path +:+ "_backup")) as [b|] eqn:Hb.
  - rewrite (after_rmtree_removable pf path f t Hp
               (Hdir (ex_intro _ b eq_refl) t eq_refl)).
    apply lookup_delete_eq.
  - rewrite lookup_insert_ne by apply backup_neq. apply lookup_delete_eq.
Qed.

Lemma restore_fs_other pf path f k :
  k <> path -> k <> path +:+ "_backup" -> restore_fs pf path f !! k = f !! k.
Proof.
  intros H1 H2. unfold restore_fs.
  destruct (f !! (path +:+ "_backup")); [|reflexivity].
  destruct (f !! path) as [t|].
  - destruct (removable pf t).
    + rewrite lookup_insert_ne by congruence.
      now rewrite lookup_delete_ne by congruence.
    + now apply after_rmtree_other.
  - rewrite lookup_insert_ne by congruence.
    now rewrite lookup_delete_ne by congruence.
Qed.




(** X2: [git_clone] and [restore_repo] change nothing in the file system
    but the target and its backup, whether or not they raise. *)
Theorem one_repo_footprint env p g x rec w k :
  k <> p +:+ "/" +:+ x ->
  k <> (p +:+ "/" +:+ x) +:+ "_backup" ->
  fs (world_of (git_clone env (Some done) p g x rec w)) !! k = fs w !! k
  /\ fs (world_of (restore_repo p x w)) !! k = fs w !! k.
Proof.
  intros H1 H2. rewrite git_clone_fs, restore_repo_fs.
  split; [now apply prepare_fs_other|now apply restore_fs_other].
Qed.

Lemma one_repo_footprint_witness :
  fs (world_of (git_clone env_all_cloned (Some done) "/sdk" "armory3d/armory"
                  "armory" false w_sdk_root)) !! "/sdk/iron" = Some tree_old
  /\ fs (world_of (restore_repo "/sdk" "armory" w_sdk_root)) !! "/sdk/iron"
     = Some tree_old.
Proof.
  refine (one_repo_footprint env_all_cloned "/sdk" "armory3d/armory" "armory"
            false w_sdk_root "/sdk/iron" _ _); discriminate.
Defined.

(** X3: [restore_repo] is idempotent: once it has returned, calling it
    again changes nothing. *)
Theorem restore_repo_idempotent p x w w1 :
  restore_repo p x w = Ok tt w1 -> restore_repo p x w1 = Ok tt w1.
Proof.
  intros H. apply restore_repo_no_backup.
  pose proof (restore_repo_fs p x w) as Hfs. rewrite H in Hfs.
  cbn [world_of] in Hfs. rewrite Hfs. unfold restore_fs.
  destruct (fs w !! ((p +:+ "/" +:+ x) +:+ "_backup")) as [b|] eqn:Hb; [|exact Hb].
  destruct (fs w !! (p +:+ "/" +:+ x)) as [t|] eqn:Hp.
  - destruct (removable (os w) t) eqn:Hr.
    + rewrite lookup_insert_ne by apply backup_neq'. apply lookup_delete_eq.
    + exfalso. destruct (restore_repo_blocked p x w b t Hb Hp Hr) as [n' Hs].
      rewrite Hs in H. discriminate.
  - rewrite lookup_insert_ne by apply backup_neq'. apply lookup_delete_eq.
Qed.

Lemma restore_repo_idempotent_witness :
  exists w1, restore_repo "/sdk" "armory" w_updated = Ok tt w1
             /\ restore_repo "/sdk" "armory" w1 = Ok tt w1.
Proof.
  destruct (restore_repo "/sdk" "armory" w_updated) as [[] w1|e w1] eqn:H.
  - exists w1. split; [reflexivity|].
    exact (restore_repo_idempotent "/sdk" "armory" w_updated w1 H).
  - exfalso. vm_compute in H. discriminate.
Defined.

(** ** Targets and backups of different repositories *)

Lemma append_inj_l (p a b : string) : p +:+ a = p +:+ b -> a = b.
Proof.
  induction p as [|c p IH]; cbn; [trivial|].
  intros H. injection H as H. exact (IH H).
Qed.

Lemma length_append (a b : string) :
  String.length (a +:+ b) = (String.length a + String.length b)%nat.
Proof.
  induction a as [|c a IH]; [reflexivity|].
  change (S (String.length (a +:+ b))
          = S (String.length a + String.length b)). now f_equal.
Qed.

Lemma append_inj_r (a b t : string) : a +:+ t = b +:+ t -> a = b.
Proof.
  revert b. induction a as [|c a IH]; intros [|c' b] H.
  - reflexivity.
  - exfalso. apply (f_equal String.length) in H.
    change (String.length t = S (String.length (b +:+ t))) in H.
    rewrite length_append in H. lia.
  - exfalso. apply (f_equal String.length) in H.
    change (S (String.length (a +:+ t)) = String.length t) in H.
    rewrite length_append in H. lia.
  - change (String c (a +:+ t) = String c' (b +:+ t)) in H.
    injection H as -> H. f_equal. exact (IH b H).
Qed.

(** Names of which none is another one followed by [_backup] give
    separated targets under every root. *)
Lemma separated_names p ns :
  (forall x y, In x ns -> In y ns -> x +:+ "_backup" <> y) ->
  separated p ns.
Proof.
  intros Hns x y Hx Hy Hne. repeat split.
  - intros H. apply append_inj_l in H. cbn in H. injection H as H. contradiction.
  - intros H. rewrite !append_assoc in H. apply append_inj_l in H.
    cbn in H. injection H as H. exact (Hns x y Hx Hy H).
  - intros H. apply append_inj_r, append_inj_l in H.
    cbn in H. injection H as H. contradiction.
Qed.

Lemma no_backup_names (ns : list string) :
  forallb (fun x => forallb (fun y => negb (String.eqb (x +:+ "_backup") y)) ns) ns
  = true ->
  forall x y, In x ns -> In y ns -> x +:+ "_backup" <> y.
Proof.
  intros H x y Hx Hy Heq.
  rewrite forallb_forall in H. specialize (H x Hx).
  rewrite forallb_forall in H. specialize (H y Hy).
  apply negb_true_iff, String.eqb_neq in H. contradiction.
Qed.


Lemma separated_repos p : separated p (map n repos).
Proof. apply separated_names, no_backup_names. reflexivity. Qed.

Lemma NoDup_restore_names : List.NoDup restore_names.
Proof. repeat constructor; cbn; intuition discriminate. Qed.

Lemma NoDup_repos : List.NoDup (map n repos).
Proof. repeat constructor; cbn; intuition discriminate. Qed.

Lemma restore_names_repos x : In x restore_names <-> In x (map n repos).
Proof. cbn. intuition. Qed.

(** ** The file system along a batch *)

Lemma run_proc_snd env cmd cb w :
  snd (run_proc env cmd cb w)
  = match popen env cmd with
    | PopenOk pr => Some (mkThread cmd pr cb)
    | _ => None
    end.
Proof.
  unfold run_proc. destruct (popen env cmd) as [errno msg|msg|pr]; try reflexivity.
  all: destruct (errno_is errno 12); [|destruct (errno_is errno 13)]; reflexivity.
Qed.

Lemma unblocked_ext w1 w2 path :
  os w1 = os w2 ->
  fs w1 !! path = fs w2 !! path ->
  fs w1 !! (path +:+ "_backup") = fs w2 !! (path +:+ "_backup") ->
  unblocked w1 path = unblocked w2 path.
Proof. unfold unblocked, removable_at. now intros -> -> ->. Qed.

(** What a [git_clone] call of the batch that returns has done. *)
Lemma git_clone_ok env p r w t w' :
  git_clone env (Some done) p (gitn r) (n r) (recursive r) w = Ok t w' ->
  unblocked w (path_of p r) = true
  /\ fs w' = prepare_fs (os w) (path_of p r) (fs w)
  /\ os w' = os w
  /\ fs w' !! path_of p r = None
  /\ popen_attempts (trace w')
     = (popen_attempts (trace w) ++ [command_of p r])%list
  /\ match popen env (command_of p r) with
     | PopenOk pr => t = Some (mkThread (command_of p r) pr (Some done))
     | _ => t = None
     end.
Proof.
  intros H.
  assert (Hu : unblocked w (path_of p r) = true).
  { destruct (unblocked w (path_of p r)) eqn:E; [reflexivity|].
    destruct (git_clone_blocked env (Some done) p (gitn r) (n r) (recursive r) w E)
      as (t0 & b & n' & _ & _ & _ & Hg).
    rewrite Hg in H. discriminate. }
  pose proof (git_clone_fs env p (gitn r) (n r) (recursive r) w) as Hfs.
  pose proof (os_git_clone env p (gitn r) (n r) (recursive r) w) as Hos.
  rewrite H in Hfs, Hos. cbn [world_of] in Hfs, Hos. fold (path_of p r) in Hfs.
  split; [exact Hu|]. split; [exact Hfs|]. split; [exact Hos|].
  split; [|split].
  - rewrite Hfs. apply prepare_fs_target. intros Hb t0 Hp.
    unfold unblocked, removable_at in Hu. destruct Hb as [b Hb].
    now rewrite Hb, Hp in Hu.
  - destruct (git_clone_done_observe env p r w)
      as [(e & w1 & H1 & _)|[(w1 & pr & H1 & Ho)|(w1 & H1 & Ho)]];
      rewrite H1 in H; [discriminate| |]; injection H as _ <-.
    + change (o_attempts (observe w1)
              = (o_attempts (observe w) ++ [command_of p r])%list).
      now rewrite Ho.
    + change (o_attempts (observe w1)
              = (o_attempts (observe w) ++ [command_of p r])%list).
      now rewrite Ho.
  - pose proof (git_clone_unfold env (Some done) p (gitn r) (n r) (recursive r) w
                  Hu) as Hg.
    cbv zeta in Hg. fold (path_of p r) in Hg. fold (command_of p r) in Hg.
    rewrite Hg in H.
    pose proof (run_proc_snd env (command_of p r) (Some done)
                  (prepare_target_spec (path_of p r) w)) as Hs.
    destruct (run_proc env (command_of p r) (Some done)
                (prepare_target_spec (path_of p r) w)) as [w2 t2].
    cbn [snd] in Hs. injection H as <- _. rewrite Hs.
    destruct (popen env (command_of p r)); reflexivity.
Qed.

Lemma bak_neq_path p r1 r2 :
  In r1 repos -> In r2 repos -> path_of p r1 +:+ "_backup" <> path_of p r2.
Proof.
  intros H1 H2. destruct (decide (n r1 = n r2)) as [E|E].
  - unfold path_of. rewrite E. apply backup_neq.
  - apply (separated_repos p (n r1) (n r2)); [now apply in_map..|exact E].
Qed.

Lemma paths_differ p r1 r2 :
  In r1 repos -> In r2 repos -> n r1 <> n r2 ->
  path_of p r1 <> path_of p r2
  /\ path_of p r1 +:+ "_backup" <> path_of p r2 +:+ "_backup".
Proof.
  intros H1 H2 E.
  destruct (separated_repos p (n r1) (n r2)) as (Ha & _ & Hc);
    [now apply in_map..|exact E|].
  now split.
Qed.

Lemma names_distinct launched r rs :
  repos = (launched ++ r :: rs)%list ->
  forall r', In r' launched \/ In r' rs -> n r' <> n r.
Proof.
  intros E r' Hin Hn. pose proof NoDup_repos as Hnd.
  rewrite E, map_app in Hnd. cbn [map] in Hnd.
  apply List.NoDup_remove_2 in Hnd. apply Hnd.
  rewrite <- Hn. apply in_or_app.
  destruct Hin as [Hin|Hin]; [left|right]; now apply in_map.
Qed.

Lemma names_apart launched rest r1 r2 :
  repos = (launched ++ rest)%list ->
  In r1 launched -> In r2 rest -> n r1 <> n r2.
Proof.
  intros E H1 H2. apply in_split in H2 as (a & b & ->).
  rewrite app_assoc in E.
  apply (names_distinct (launched ++ a)%list r2 b E r1).
  left. apply in_or_app. now left.
Qed.

Lemma batch_fs_start G p w : batch_fs G p w (batch_start w).
Proof.
  unfold batch_fs, batch_start. cbn [main cw pending].
  exists []. split; [reflexivity|]. split; [reflexivity|].
  split; [cbn; now rewrite app_nil_r|].
  split; [reflexivity|]. split; [intros; now split|].
  split; intros ? [].
Qed.

Lemma batch_fs_step G env p w0 c c' :
  confined G env p ->
  batch_fs G p w0 c -> step env p c c' -> batch_fs G p w0 c'.
Proof.
  intros Hconf Hinv Hstep. unfold batch_fs in *.
  destruct Hstep as [r rs ts w t w' Hg|r rs ts w e w' Hg
                    |m ts1 t wr rest ts2 w Hw|m ts1 t ts2 w Hw];
    cbn [cw main pending] in *; [| exact I | |].
  - destruct Hinv as (launched & E & Hos & Hatt & Hother & Hrest & Hl & Hpend).
    destruct (git_clone_ok env p r w t w' Hg) as (Hu & Hfs & Hos' & Ht & Ha & Hth).
    assert (Hr : In r repos) by (rewrite E; apply in_or_app; right; now left).
    assert (Hin : forall r', In r' launched \/ In r' rs -> In r' repos).
    { intros r' [H|H]; rewrite E; apply in_or_app; [now left|right; now right]. }
    assert (Hkeep : forall r', In r' launched \/ In r' rs ->
              fs w' !! path_of p r' = fs w !! path_of p r'
              /\ fs w' !! (path_of p r' +:+ "_backup")
                 = fs w !! (path_of p r' +:+ "_backup")).
    { intros r' Hr'. pose proof (names_distinct launched r rs E r' Hr') as Hn.
      destruct (paths_differ p r' r (Hin r' Hr') Hr Hn) as [H1 H2].
      rewrite Hfs. split; apply prepare_fs_other; try assumption.
      - apply not_eq_sym, bak_neq_path; [exact Hr|now apply Hin].
      - apply bak_neq_path; [now apply Hin|exact Hr]. }
    exists (launched ++ [r])%list.
    split; [now rewrite <- app_assoc|]. split; [congruence|].
    split; [rewrite Ha, Hatt, map_app, <- app_assoc; reflexivity|].
    split; [|split; [|split]].
    + intros k Hk. rewrite Hfs.
      rewrite prepare_fs_other by (apply (Hk r Hr)). now apply Hother.
    + intros r' Hr'. destruct (Hkeep r' (or_intror Hr')) as [-> ->].
      apply Hrest. now right.
    + intros r' Hr'. apply in_app_or in Hr' as [Hr'|[<-|[]]].
      * destruct (Hkeep r' (or_introl Hr')) as [-> ->]. now apply Hl.
      * split; [|left; exact Ht].
        rewrite Hfs, prepare_fs_backup. unfold oldest.
        destruct (Hrest r (or_introl eq_refl)) as [-> ->]. reflexivity.
    + intros t0 Ht0. apply in_app_or in Ht0 as [Ht0|Ht0].
      * destruct (Hpend t0 Ht0) as (r' & Hr' & H).
        exists r'. split; [apply in_or_app; now left|exact H].
      * exists r. split; [apply in_or_app; right; now left|].
        destruct (popen env (command_of p r)) as [errno msg|msg|pr] eqn:Hp;
          subst t; try contradiction.
        destruct Ht0 as [<-|[]]. cbn [th_cmd th_done th_proc].
        split; [reflexivity|]. split; [reflexivity|].
        now apply (Hconf r pr Hr).
  - destruct m as [rs|e]; [|exact I].
    destruct Hinv as (launched & E & Hos & Hatt & Hother & Hrest & Hl & Hpend).
    destruct (Hpend t) as (rt & Hrt & Hcmd & Hdone & Hcl);
      [apply in_or_app; right; now left|].
    unfold clones_at in Hcl. rewrite Hw in Hcl.
    pose proof (Forall_inv Hcl) as (nw & HG & Hwr).
    pose proof (Forall_inv_tail Hcl) as Htail.
    assert (Hin : forall r', In r' launched \/ In r' rs -> In r' repos).
    { intros r' [H|H]; rewrite E; apply in_or_app; [now left|now right]. }
    assert (Hfs : fs (set_fs wr w) = <[path_of p rt := nw]> (fs w))
      by (cbn [fs set_fs]; apply Hwr).
    exists launched. split; [exact E|]. split; [exact Hos|].
    split; [exact Hatt|]. split; [|split; [|split]].
    + intros k Hk. rewrite Hfs.
      rewrite lookup_insert_ne
        by (apply not_eq_sym, (Hk rt); apply Hin; now left).
      now apply Hother.
    + intros r' Hr'. rewrite Hfs.
      pose proof (names_apart launched rs rt r' E Hrt Hr') as Hn.
      destruct (paths_differ p rt r' (Hin rt (or_introl Hrt)) (Hin r' (or_intror Hr')) Hn)
        as [H1 _].
      rewrite lookup_insert_ne by exact H1.
      rewrite lookup_insert_ne
        by (apply not_eq_sym, bak_neq_path; apply Hin; [now right|now left]).
      now apply Hrest.
    + intros r' Hr'. rewrite Hfs.
      rewrite lookup_insert_ne
        by (apply not_eq_sym, bak_neq_path; apply Hin; now left).
      split; [now apply Hl|].
      destruct (decide (path_of p rt = path_of p r')) as [Ee|Ee].
      * right. exists nw. rewrite <- Ee, lookup_insert_eq. now split.
      * rewrite lookup_insert_ne by exact Ee. now apply Hl.
    + intros t0 Ht0. apply in_app_or in Ht0 as [Ht0|[<-|Ht0]].
      * apply Hpend, in_or_app. now left.
      * exists rt. split; [exact Hrt|]. cbn [waiting_for th_cmd th_done th_proc].
        split; [exact Hcmd|]. split; [exact Hdone|]. exact Htail.
      * apply Hpend, in_or_app. right. now right.
  - destruct m as [rs|e]; [|exact I].
    destruct Hinv as (launched & E & Hos & Hatt & Hother & Hrest & Hl & Hpend).
    destruct (Hpend t) as (rt & Hrt & Hcmd & Hdone & Hcl);
      [apply in_or_app; right; now left|].
    destruct t as [cmd pr cb]. cbn [th_done] in Hdone. subst cb.
    assert (Hfs : fs (fn (mkThread cmd pr (Some done)) w) = fs w)
      by (unfold fn; cbn [th_done th_proc th_cmd]; now rewrite fs_call_done).
    assert (Hos' : os (fn (mkThread cmd pr (Some done)) w) = os w)
      by (unfold fn, call; cbn [th_done th_proc th_cmd]; now rewrite os_done).
    assert (Ha : popen_attempts (trace (fn (mkThread cmd pr (Some done)) w))
                 = popen_attempts (trace w)).
    { change (o_attempts (observe (fn (mkThread cmd pr (Some done)) w))
              = o_attempts (observe w)).
      now rewrite observe_fn_done. }
    exists launched. rewrite Hfs, Hos', Ha.
    split; [exact E|]. split; [exact Hos|]. split; [exact Hatt|].
    split; [exact Hother|]. split; [exact Hrest|]. split; [exact Hl|].
    intros t0 Ht0. apply Hpend.
    apply in_app_or in Ht0 as [Ht0|Ht0]; apply in_or_app;
      [now left|right; now right].
Qed.

Lemma batch_fs_steps G env p w c :
  confined G env p ->
  steps env p (batch_start w) c -> batch_fs G p w c.
Proof.
  intros Hconf H. remember (batch_start w) as c0 eqn:E.
  induction H as [c|c1 c2 c3 H12 IH H23]; subst.
  - apply batch_fs_start.
  - eapply batch_fs_step; [exact Hconf|apply IH; reflexivity|exact H23].
Qed.

(** With every target unblocked at the start and clones that write at
    their own destinations only, no [git_clone] call of the batch
    raises. *)
Lemma batch_never_crashes G env p w c :
  confined G env p ->
  (forall r, In r repos -> unblocked w (path_of p r) = true) ->
  steps env p (batch_start w) c ->
  exists rest, main c = Launching rest.
Proof.
  intros Hconf Hun H. remember (batch_start w) as c0 eqn:E.
  induction H as [c|c1 c2 c3 H12 IH H23]; subst.
  - now exists repos.
  - specialize (IH eq_refl). destruct IH as [rest0 Hm].
    pose proof (batch_fs_steps G env p w c2 Hconf H12) as Hinv.
    destruct H23 as [r rs ts w1 t w' Hg|r rs ts w1 e w' Hg
                    |m ts1 t wr rest ts2 w1 Hw|m ts1 t ts2 w1 Hw];
      cbn [main] in *; eauto.
    exfalso. unfold batch_fs in Hinv. cbn [main cw] in Hinv.
    destruct Hinv as (launched & Er & Hos & _ & _ & Hrest & _).
    destruct (Hrest r (or_introl eq_refl)) as [H1 H2].
    assert (Hr : In r repos) by (rewrite Er; apply in_or_app; right; now left).
    pose proof (git_clone_unfold env (Some done) p (gitn r) (n r) (recursive r) w1)
      as Hu.
    cbv zeta in Hu. fold (path_of p r) in Hu.
    rewrite Hu in Hg.
    + destruct (run_proc _ _ _ _). discriminate.
    + rewrite (unblocked_ext w1 (reset_counters w) (path_of p r) Hos H1 H2).
      apply (Hun r Hr).
Qed.

(** ** The SDK directory and the paths below it *)

Lemma make_above_other l f k :
  ~ In k l -> make_above l f !! k = f !! k.
Proof.
  induction l as [|a up IH]; intros Hk; [reflexivity|].
  cbn [make_above]. destruct (f !! a); [reflexivity|].
  rewrite lookup_insert_ne by (intros ->; apply Hk; now left).
  apply IH. intros H. apply Hk. now right.
Qed.

Lemma ancestors_from_length pf rest : forall pre a,
  In a (ancestors_from pf pre rest) ->
  (String.length a < String.length pre + String.length rest)%nat.
Proof.
  induction rest as [|c rest IH]; intros pre a Ha; [destruct Ha|].
  cbn [ancestors_from] in Ha. apply in_app_or in Ha as [Ha|Ha].
  - destruct (_ && _); [|destruct Ha]. destruct Ha as [<-|[]].
    cbn [String.length]. lia.
  - apply IH in Ha. rewrite length_append in Ha. cbn [String.length] in *. lia.
Qed.

Lemma below_not_above pf sp s :
  ~ In (sp +:+ s) (rev (ancestors pf sp)).
Proof.
  intros H. apply in_rev in H. apply ancestors_from_length in H.
  rewrite length_append in H. cbn [String.length] in H. lia.
Qed.

Lemma append_neq_self (sp s : string) : s <> EmptyString -> sp +:+ s <> sp.
Proof. apply append_backup_neq. Qed.

(** Entering the SDK directory changes nothing below it. *)
Lemma probed_below sp w s :
  s <> EmptyString -> fs (probed sp w) !! (sp +:+ s) = fs w !! (sp +:+ s).
Proof.
  intros Hs. unfold probed, print. rewrite !fs_log.
  destruct (fs w !! sp); [reflexivity|].
  unfold entered_new_root, print, report. cbn [fs log set_cwd set_fs].
  rewrite lookup_insert_ne by (apply not_eq_sym, append_neq_self, Hs).
  apply make_above_other, below_not_above.
Qed.



Lemma path_below sp (r : repo) : path_of sp r = sp +:+ ("/" +:+ n r).
Proof. reflexivity. Qed.

Lemma bak_below sp (r : repo) :
  path_of sp r +:+ "_backup" = sp +:+ (("/" +:+ n r) +:+ "_backup").
Proof. unfold path_of. now rewrite append_assoc. Qed.

Lemma probed_repo sp w r :
  fs (probed sp w) !! path_of sp r = fs w !! path_of sp r
  /\ fs (probed sp w) !! (path_of sp r +:+ "_backup")
     = fs w !! (path_of sp r +:+ "_backup").
Proof.
  rewrite bak_below, path_below. split; apply probed_below; discriminate.
Qed.




(** After a successful probe [download_sdk] is the batch of launches. *)
Lemma download_sdk_probed env ctx w sp :
  get_sdk_path ctx w = Ok sp w ->
  sp <> EmptyString ->
  no_file_at (fs w) sp ->
  probe_succeeds env ->
  download_sdk env ctx w
  = match launch env (Some done) sp repos (reset_counters (probed sp w)) with
    | Ok ts w3 => Ok (None, ts) w3
    | Raise e w3 => Raise e w3
    end.
Proof.
  intros Hsp Hne Hdir Hok.
  rewrite (download_sdk_unfold env ctx w sp Hsp Hne Hdir).
  now rewrite (git_test_succeeds env _ Hok).
Qed.

(** Output of [git --version] that is not valid UTF-8: the exception of
    [decode] leaves [download_sdk], after the directory was entered. *)
Lemma download_sdk_undecodable_raise env ctx w sp output :
  get_sdk_path ctx w = Ok sp w ->
  sp <> EmptyString ->
  no_file_at (fs w) sp ->
  git_version env = ProbeOutput output ->
  decode output = None ->
  exists w',
    download_sdk env ctx w = Raise UnicodeDecodeError w'
    /\ is_Some (fs w' !! sp)
    /\ cwd w' = sp
    /\ popen_attempts (trace w') = popen_attempts (trace w)
    /\ forall msg, occurrences (EvReport ERROR msg) (trace w')
                   = occurrences (EvReport ERROR msg) (trace w).
Proof.
  intros Hsp Hne Hdir Hv Hd.
  rewrite (download_sdk_unfold env ctx w sp Hsp Hne Hdir).
  rewrite (git_test_undecodable env _ output Hv Hd).
  eexists. split; [reflexivity|].
  destruct (fs w !! sp) as [t|] eqn:Hl;
    unfold entered_new_root, entered_old_root, report, print;
    cbn [fs cwd trace log set_cwd set_fs].
  - split; [rewrite Hl; eauto|]. split; [reflexivity|].
    split; [now rewrite !popen_attempts_snoc, !app_nil_r|].
    intros msg. rewrite !occurrences_snoc.
    rewrite !decide_False by discriminate. lia.
  - split; [rewrite lookup_insert_eq; eauto|]. split; [reflexivity|].
    split; [now rewrite !popen_attempts_snoc, !app_nil_r|].
    intros msg. rewrite !occurrences_snoc.
    rewrite !decide_False by discriminate. lia.
Qed.


(** The batch of [download_sdk] under clones that write at their own
    destinations: it ends with all nine commands handed to [Popen]. *)
Lemma launch_all env p w :
  confined (fun _ => True) env p ->
  (forall r, In r repos -> unblocked w (path_of p r) = true) ->
  exists ts w',
    launch env (Some done) p repos (reset_counters w) = Ok ts w'
    /\ popen_attempts (trace w')
       = (popen_attempts (trace w) ++ map (command_of p) repos)%list.
Proof.
  intros Hconf Hun.
  destruct (launch env (Some done) p repos (reset_counters w)) as [ts w'|e w'] eqn:Hl.
  - exists ts, w'. split; [reflexivity|].
    pose proof (launch_steps env p repos [] _ _ _ Hl) as Hs.
    pose proof (batch_fs_steps _ env p w _ Hconf Hs) as Hinv.
    unfold batch_fs in Hinv. cbn [main cw] in Hinv.
    destruct Hinv as (launched & Er & _ & Ha & _).
    rewrite app_nil_r in Er. now rewrite Ha, <- Er.
  - destruct (launch_crash_steps env p repos [] _ _ _ Hl) as [ts Hs].
    destruct (batch_never_crashes _ env p w _ Hconf Hun Hs) as [rest Hm].
    discriminate.
Qed.

Lemma destination_command p r : destination (command_of p r) = path_of p r.
Proof. unfold command_of, clone_command. now destruct (recursive r). Qed.

Lemma cloned_confined p r :
  clones_at (fun _ => True) (path_of p r) (cloned (command_of p r)).
Proof.
  unfold clones_at, cloned. cbn [proc_writes]. constructor; [|constructor].
  exists tree_v1. split; [exact I|]. intros f. now rewrite destination_command.
Qed.

Lemma confined_all_cloned p : confined (fun _ => True) env_all_cloned p.
Proof. intros r pr _ [= <-]. apply cloned_confined. Qed.

Lemma confined_one_denied denied p :
  confined (fun _ => True) (env_one_denied denied) p.
Proof.
  intros r pr _. cbn [popen env_one_denied].
  destruct (decide _); [discriminate|]. intros [= <-]. apply cloned_confined.
Qed.

(** ** C2: the probe decides whether anything is launched *)




(** ** C4: [run_proc] and its callback *)

(** A [Popen] that raises inside [git_clone] is caught there: the call
    returns without a thread and the launching thread goes on with the
    next repository; the waiter threads already started stay as they
    are. *)
Lemma failed_popen_goes_on env p r rs ts w :
  (forall pr, popen env (command_of p r) <> PopenOk pr) ->
  unblocked w (path_of p r) = true ->
  exists w',
    git_clone env (Some done) p (gitn r) (n r) (recursive r) w = Ok None w'
    /\ w' = fst (run_proc env (command_of p r) (Some done)
                   (prepare_target_spec (path_of p r) w))
    /\ step env p (mkConfig (Launching (r :: rs)) ts w)
                  (mkConfig (Launching rs) ts w').
Proof.
  intros Hp Hu.
  pose proof (git_clone_unfold env (Some done) p (gitn r) (n r) (recursive r) w Hu)
    as Hg.
  cbv zeta in Hg. fold (path_of p r) in Hg. fold (command_of p r) in Hg.
  pose proof (run_proc_snd env (command_of p r) (Some done)
                (prepare_target_spec (path_of p r) w)) as Hs.
  destruct (run_proc env (command_of p r) (Some done)
              (prepare_target_spec (path_of p r) w)) as [w2 t2].
  cbn [snd fst] in *.
  assert (t2 = None) as ->.
  { rewrite Hs. destruct (popen env (command_of p r)) as [| |pr] eqn:E;
      [reflexivity|reflexivity|]. now destruct (Hp pr). }
  exists w2. split; [exact Hg|]. split; [reflexivity|].
  pose proof (step_launch env p r rs ts w None w2 Hg) as Hstep.
  cbn [opt_list] in Hstep. now rewrite app_nil_r in Hstep.
Qed.

(** C4: [run_proc] applies its callback exactly once.  When [Popen]
    raises (an [OSError] or any other exception), the exception is
    caught, no thread is started, and [run_proc] itself applies the
    callback to 1 before it prints the lines about the failure; when the
    process starts, [run_proc] returns the waiter thread without applying
    the callback, and the thread applies it to 0 after [p.wait()] has
    returned, whatever the exit code.  For a callback that does not
    itself record entries, the trace has exactly one entry of the
    callback in each case.  In the batch, a [Popen] that raises for one
    repository leaves the launching thread running and the waiter threads
    untouched, and all nine commands are handed to [Popen] whichever of
    them raise. *)
Theorem run_proc_reports_once env cmd d w p :
  match popen env cmd with
  | PopenOk pr =>
      run_proc env cmd (Some d) w
      = (log (EvPopen cmd true) w, Some (mkThread cmd pr (Some d)))
      /\ forall w2,
           fn (mkThread cmd pr (Some d)) w2
           = d 0 (log (EvCall 0) (log (EvWait cmd (exit_code pr)) w2))
  | PopenOSError errno msg =>
      run_proc env cmd (Some d) w
      = (print (if errno_is errno 12
                then "Make sure there is enough space for the SDK (at least 500mb)"
                else if errno_is errno 13
                then "Permission denied, try modifying the permission of the sdk folder"
                else "error: " +:+ msg)
           (print (running_command cmd)
              (d 1 (log (EvCall 1) (log (EvPopen cmd false) w)))),
         None)
  | PopenException msg =>
      run_proc env cmd (Some d) w
      = (print (String.concat " " ["error:"; msg; newline])
           (print (running_command cmd)
              (d 1 (log (EvCall 1) (log (EvPopen cmd false) w)))),
         None)
  end
  /\ (silent d ->
      match popen env cmd with
      | PopenOk pr =>
          calls (trace (fst (run_proc env cmd (Some d) w))) = calls (trace w)
          /\ forall w2,
               calls (trace (fn (mkThread cmd pr (Some d)) w2))
               = (calls (trace w2) ++ [0])%list
      | _ =>
          snd (run_proc env cmd (Some d) w) = None
          /\ calls (trace (fst (run_proc env cmd (Some d) w)))
             = (calls (trace w) ++ [1])%list
      end)
  /\ (forall r rs ts,
        (forall pr, popen env (command_of p r) <> PopenOk pr) ->
        unblocked w (path_of p r) = true ->
        exists w',
          git_clone env (Some done) p (gitn r) (n r) (recursive r) w = Ok None w'
          /\ w' = fst (run_proc env (command_of p r) (Some done)
                         (prepare_target_spec (path_of p r) w))
          /\ step env p (mkConfig (Launching (r :: rs)) ts w)
                        (mkConfig (Launching rs) ts w'))
  /\ (confined (fun _ => True) env p ->
      (forall r, In r repos -> unblocked w (path_of p r) = true) ->
      exists ts w',
        launch env (Some done) p repos (reset_counters w) = Ok ts w'
        /\ popen_attempts (trace w')
           = (popen_attempts (trace w) ++ map (command_of p) repos)%list).
Proof.
  split; [apply run_proc_callback|].
  split; [apply run_proc_calls|].
  split; [intros r rs ts; apply failed_popen_goes_on|apply launch_all].
Qed.

Lemma run_proc_reports_once_witness :
  (snd (run_proc env_armory_denied
          (command_of "/sdk" armory) (Some done) w_empty) = None
   /\ calls (trace (fst (run_proc env_armory_denied
                           (command_of "/sdk" armory) (Some done) w_empty)))
      = [1])
  /\ (exists w',
        git_clone env_armory_denied (Some done) "/sdk" "armory3d/armory" "armory"
          false w_empty = Ok None w'
        /\ step env_armory_denied "/sdk"
             (mkConfig (Launching [armory]) [] w_empty)
             (mkConfig (Launching []) [] w'))
  /\ (exists ts w',
        launch env_armory_denied (Some done) "/sdk" repos (reset_counters w_empty)
        = Ok ts w'
        /\ popen_attempts (trace w') = map (command_of "/sdk") repos).
Proof.
  pose proof (run_proc_reports_once env_armory_denied
                (command_of "/sdk" armory) done w_empty "/sdk")
    as (_ & Hcalls & Hnext & Hall).
  split; [exact (Hcalls silent_done)|]. split.
  - destruct (Hnext armory [] []) as (w' & Hg & _ & Hs).
    + intros pr. vm_compute. discriminate.
    + reflexivity.
    + exists w'. split; [exact Hg|exact Hs].
  - apply Hall; [apply confined_one_denied|]. intros r _. reflexivity.
Defined.

(** ** C9: the clone command *)

Lemma url_neq_flag gitn flag :
  (forall s, flag <> String "h" s) -> "https://github.com/" +:+ gitn <> flag.
Proof. intros H. cbn. apply not_eq_sym, H. Qed.

Ltac not_a_flag :=
  cbn [In]; intros Hin;
  repeat (destruct Hin as [Hin|Hin]);
  first [ discriminate Hin
        | contradiction
        | revert Hin; apply url_neq_flag; discriminate
        | revert Hin; apply path_neq_flag; reflexivity ].

(** A [git_clone] call of [download_sdk] either hands its command to
    [Popen], as the one command of the call, or raises before. *)
Lemma git_clone_attempt env p gitn x rec w :
  let path := p +:+ "/" +:+ x in
  (unblocked w path = true ->
   exists t w',
     git_clone env (Some done) p gitn x rec w = Ok t w'
     /\ popen_attempts (trace w')
        = (popen_attempts (trace w) ++ [clone_command path gitn rec])%list)
  /\ (unblocked w path = false ->
      exists e w',
        git_clone env (Some done) p gitn x rec w = Raise e w'
        /\ popen_attempts (trace w') = popen_attempts (trace w)).
Proof.
  intros path. split; intros Hu.
  - pose proof (git_clone_unfold env (Some done) p gitn x rec w Hu) as Hg.
    cbv zeta in Hg. fold path in Hg.
    destruct (run_proc env (clone_command path gitn rec) (Some done)
                (prepare_target_spec path w)) as [w2 t2].
    exists t2, w2. split; [exact Hg|].
    now destruct (git_clone_ok env p (mkRepo gitn x rec) w t2 w2 Hg)
      as (_ & _ & _ & _ & Ha & _).
  - destruct (git_clone_blocked env (Some done) p gitn x rec w Hu)
      as (t & b & n' & _ & _ & _ & Hg).
    eexists _, _. split; [exact Hg|].
    cbn [trace log set_fs]. rewrite popen_attempts_snoc. apply app_nil_r.
Qed.

(** C9: [git_clone] hands to [run_proc] the command made of [git clone],
    the URL made of [https://github.com/] and the remote identifier, the
    destination path and [--depth 1]; a recursive clone also carries
    [--recursive], [--shallow-submodules] and [--jobs 4], any other clone
    carries none of the three.  Whenever the target is not left in the
    way of its backup, the call returns what [run_proc] returns for that
    command in the world with the target prepared, and as called by
    [download_sdk] it hands that command, and no other, to [Popen];
    otherwise it raises and hands nothing to [Popen]. *)
Theorem clone_command_shape env cb p gitn x rec w :
  let path := p +:+ "/" +:+ x in
  let cmd := clone_command path gitn rec in
  (unblocked w path = true ->
   git_clone env cb p gitn x rec w
   = let '(w', t) := run_proc env cmd cb (prepare_target_spec path w) in Ok t w')
  /\ (unblocked w path = true ->
      exists t w',
        git_clone env (Some done) p gitn x rec w = Ok t w'
        /\ popen_attempts (trace w') = (popen_attempts (trace w) ++ [cmd])%list)
  /\ (unblocked w path = false ->
      exists e w',
        git_clone env (Some done) p gitn x rec w = Raise e w'
        /\ popen_attempts (trace w') = popen_attempts (trace w))
  /\ cmd = (["git"; "clone"]
            ++ (if rec then ["--recursive"] else [])
            ++ ["https://github.com/" +:+ gitn; path; "--depth"; "1"]
            ++ (if rec then ["--shallow-submodules"; "--jobs"; "4"] else []))%list
  /\ (if rec
      then In "--recursive" cmd /\ In "--shallow-submodules" cmd /\ In "--jobs" cmd
      else ~ In "--recursive" cmd /\ ~ In "--shallow-submodules" cmd
           /\ ~ In "--jobs" cmd).
Proof.
  intros path cmd.
  split; [apply git_clone_unfold|].
  split; [apply git_clone_attempt|].
  split; [apply git_clone_attempt|].
  split; [destruct rec; reflexivity|].
  subst cmd. destruct rec; cbn [clone_command].
  - cbn [In]. intuition.
  - repeat split; not_a_flag.
Qed.

Lemma clone_command_shape_witness :
  (exists t w',
     git_clone env_all_cloned (Some done) "/sdk" "armory3d/Kha" "Kha" true
       w_updated = Ok t w'
     /\ popen_attempts (trace w')
        = [["git"; "clone"; "--recursive"; "https://github.com/armory3d/Kha";
            "/sdk/Kha"; "--depth"; "1"; "--shallow-submodules"; "--jobs"; "4"]])
  /\ (exists t w',
        git_clone env_all_cloned (Some done) "/sdk" "armory3d/armory" "armory" false
          (on_posix w_stale_backup) = Ok t w'
        /\ popen_attempts (trace w')
           = [["git"; "clone"; "https://github.com/armory3d/armory";
               "/sdk/armory"; "--depth"; "1"]])
  /\ (exists e w',
        git_clone env_all_cloned (Some done) "/sdk" "armory3d/armory" "armory" false
          (on_posix w_updated) = Raise e w'
        /\ popen_attempts (trace w') = []).
Proof.
  split; [|split].
  - apply (proj1 (proj2 (clone_command_shape env_all_cloned (Some done) "/sdk"
                           "armory3d/Kha" "Kha" true w_updated))).
    reflexivity.
  - apply (proj1 (proj2 (clone_command_shape env_all_cloned (Some done) "/sdk"
                           "armory3d/armory" "armory" false
                           (on_posix w_stale_backup)))).
    reflexivity.
  - apply (proj1 (proj2 (proj2 (clone_command_shape env_all_cloned (Some done) "/sdk"
                           "armory3d/armory" "armory" false (on_posix w_updated))))).
    reflexivity.
Defined.

(** ** C10: the SDK directory is made and entered before the probe *)







(** Directories above the SDK path that are missing are created with
    it. *)
Lemma makedirs_creates_the_directories_above :
  let w := world_of_fs ∅ in
  get_sdk_path (mkContext EmptyString "/home/user/sdk" "/"%char) w
  = Ok "/home/user/sdk" w
  /\ ancestors Windows "/home/user/sdk" = ["/home"; "/home/user"]
  /\ ancestors Windows "C:\Users\me\sdk" = ["C:\Users"; "C:\Users\me"]
  /\ exists w',
       download_sdk env_no_git (mkContext EmptyString "/home/user/sdk" "/"%char) w
       = Ok (Some CANCELLED, []) w'
       /\ fs w' !! "/home" = Some (Dir false [])
       /\ fs w' !! "/home/user" = Some (Dir false [])
       /\ fs w' !! "/home/user/sdk" = Some (Dir false []).
Proof.
  split; [reflexivity|]. split; [reflexivity|]. split; [reflexivity|].
  eexists. split; [reflexivity|]. repeat split.
Qed.

(** ** Overlapping callbacks *)

Lemma interleave_step i rest ws w s :
  ws !! i = Some s ->
  interleave (i :: rest) ws w
  = interleave rest (<[i := fst (waiter_step s w)]> ws) (snd (waiter_step s w)).
Proof.
  intros H. cbn [interleave]. rewrite H. now destruct (waiter_step s w).
Qed.

(** A waiter thread that is not interrupted does what [finish] does. *)
Lemma alone_is_fn i ws w cmd p rest :
  ws !! i = Some (Waits cmd p) ->
  interleave (alone i ++ rest) ws w
  = interleave rest (<[i := Ended]> ws) (finish (mkThread cmd p (Some done)) w).
Proof.
  intros H. pose proof (lookup_lt_Some _ _ _ H) as Hlt.
  unfold alone. cbn [replicate app].
  rewrite (interleave_step _ _ _ _ _ H). cbn [waiter_step fst snd].
  do 5 (erewrite interleave_step
          by (apply list_lookup_insert_eq; rewrite ?length_insert; exact Hlt);
        cbn [waiter_step fst snd Z.eqb]; rewrite list_insert_insert_eq).
  reflexivity.
Qed.

(** Running the waiters one after the other, each to its end, is the
    schedule [run_threads] of the batch. *)
Lemma serial_is_run_threads ts : forall pre w,
  (forall t, In t ts -> th_done t = Some done) ->
  interleave (serial (length pre) (length ts)) (pre ++ waiters_of ts) w
  = ((pre ++ map (fun _ => Ended) ts)%list, run_threads ts w).
Proof.
  induction ts as [|t ts IH]; intros pre w Hd.
  - reflexivity.
  - unfold serial. cbn [length seq map concat].
    assert (Ht : th_done t = Some done) by (apply Hd; now left).
    destruct t as [cmd p cb]. cbn [th_done] in Ht. subst cb.
    rewrite (alone_is_fn _ _ _ cmd p).
    2:{ cbn [waiters_of map th_cmd th_proc].
        rewrite lookup_app_r by lia. now rewrite Nat.sub_diag. }
    cbn [waiters_of map th_cmd th_proc].
    rewrite insert_app_r_alt by lia. rewrite Nat.sub_diag. cbn [insert list_insert].
    change (Ended :: map (fun t => Waits (th_cmd t) (th_proc t)) ts)
      with ([Ended] ++ waiters_of ts)%list.
    rewrite app_assoc.
    replace (S (length pre)) with (length (pre ++ [Ended])%list)
      by (rewrite length_app; cbn; lia).
    fold (serial (length (pre ++ [Ended])%list) (length ts)).
    rewrite IH by (intros t' Hin; apply Hd; now right).
    cbn [map run_threads fold_left]. now rewrite <- app_assoc.
Qed.



(** With all nine clones successful and the waiters one after the other,
    the statement-by-statement run ends like the batch: one signal. *)
Lemma serial_callbacks_signal_once :
  all_ended (fst (overlapping_run (serial 0 9))) = true
  /\ repos_done (snd (overlapping_run (serial 0 9))) = 9
  /\ repos_updated (snd (overlapping_run (serial 0 9))) = 9
  /\ n_succeeded (snd (overlapping_run (serial 0 9))) = 1%nat
  /\ n_failed (snd (overlapping_run (serial 0 9))) = 0%nat.
Proof. vm_compute. repeat split. Qed.

(** ** Update, then restore *)






(** ** Restoring every repository *)










(** ** What a batch of [download_sdk] does to the file system *)

Lemma fs_probed sp w :
  fs (probed sp w)
  = match fs w !! sp with
    | None => <[sp := Dir false []]> (make_above (rev (ancestors (os w) sp)) (fs w))
    | Some _ => fs w
    end.
Proof. unfold probed. now destruct (fs w !! sp). Qed.

Lemma oldest_probed sp w r : oldest sp (fs (probed sp w)) r = oldest sp (fs w) r.
Proof.
  unfold oldest. destruct (probed_repo sp w r) as [-> ->]. reflexivity.
Qed.

(** X6: after a successful probe [download_sdk] is the batch that starts
    in the world left by the probe, in which only the SDK directory and
    the directories above it may be new.  At every point of that batch,
    with the clones writing while the launching thread goes on and as
    long as no [git_clone] call has raised: the repositories launched so
    far have kept their oldest copy as their backup (the backup from
    before if there was one, otherwise what was at the target) and have
    at their target nothing or what their clone has written so far; the
    repositories still to come are as they were; and no other path has
    changed.  The clones are taken to write at their own destinations
    only. *)
Theorem download_sdk_keeps_oldest G env ctx w sp c :
  get_sdk_path ctx w = Ok sp w ->
  sp <> EmptyString ->
  no_file_at (fs w) sp ->
  probe_succeeds env ->
  confined G env sp ->
  steps env sp (batch_start (probed sp w)) c ->
  download_sdk env ctx w
  = match launch env (Some done) sp repos (reset_counters (probed sp w)) with
    | Ok ts w3 => Ok (None, ts) w3
    | Raise e w3 => Raise e w3
    end
  /\ fs (probed sp w)
     = match fs w !! sp with
       | None => <[sp := Dir false []]> (make_above (rev (ancestors (os w) sp)) (fs w))
       | Some _ => fs w
       end
  /\ forall rest, main c = Launching rest ->
     exists launched,
       repos = (launched ++ rest)%list
       /\ (forall r, In r launched ->
             fs (cw c) !! (path_of sp r +:+ "_backup") = oldest sp (fs w) r
             /\ (fs (cw c) !! path_of sp r = None
                 \/ exists n, fs (cw c) !! path_of sp r = Some n /\ G n))
       /\ (forall r, In r rest ->
             fs (cw c) !! path_of sp r = fs w !! path_of sp r
             /\ fs (cw c) !! (path_of sp r +:+ "_backup")
                = fs w !! (path_of sp r +:+ "_backup"))
       /\ (forall k,
             (forall r, In r repos ->
                        k <> path_of sp r /\ k <> path_of sp r +:+ "_backup") ->
             fs (cw c) !! k = fs (probed sp w) !! k).
Proof.
  intros Hsp Hne Hdir Hok Hconf Hs.
  split; [now apply download_sdk_probed|]. split; [apply fs_probed|].
  intros rest Hm.
  pose proof (batch_fs_steps G env sp _ c Hconf Hs) as Hinv.
  unfold batch_fs in Hinv. rewrite Hm in Hinv.
  destruct Hinv as (launched & Er & _ & _ & Hout & Hrest & Hl & _).
  exists launched. split; [exact Er|]. split; [|split].
  - intros r Hr. destruct (Hl r Hr) as [H1 H2]. split; [|exact H2].
    now rewrite H1, oldest_probed.
  - intros r Hr. destruct (Hrest r Hr) as [H1 H2].
    destruct (probed_repo sp w r) as [H3 H4]. split; congruence.
  - exact Hout.
Qed.

Lemma download_sdk_keeps_oldest_witness :
  fs (final_world env_all_cloned "/sdk" (probed "/sdk" w_sdk_root))
    !! "/sdk/armory_backup" = Some tree_v1
  /\ fs (final_world env_all_cloned "/sdk" (probed "/sdk" w_sdk_root))
       !! "/sdk/iron_backup" = Some tree_old
  /\ fs (final_world env_all_cloned "/sdk" (probed "/sdk" w_sdk_root))
       !! "/sdk/armory" = Some tree_v1.
Proof.
  pose proof (final_world_steps env_all_cloned "/sdk" (probed "/sdk" w_sdk_root)
                ltac:(vm_compute; exact I)) as Hs.
  assert (H3 : fs (final_world env_all_cloned "/sdk" (probed "/sdk" w_sdk_root))
                 !! "/sdk/armory" = Some tree_v1) by (vm_compute; reflexivity).
  revert Hs H3.
  generalize (final_world env_all_cloned "/sdk" (probed "/sdk" w_sdk_root)).
  intros w' Hs H3.
  destruct (download_sdk_keeps_oldest (fun _ => True) env_all_cloned ctx_sdk
              w_sdk_root "/sdk" (mkConfig (Launching []) [] w'))
    as (_ & _ & H).
  - vm_compute. reflexivity.
  - discriminate.
  - intros ro d. vm_compute. discriminate.
  - apply probe_succeeds_example.
  - apply confined_all_cloned.
  - exact Hs.
  - destruct (H [] eq_refl) as (launched & E & Hl & _).
    rewrite app_nil_r in E. subst launched. cbn [cw] in Hl.
    split; [|split; [|exact H3]].
    + etransitivity; [exact (proj1 (Hl armory ltac:(now left)))|].
      vm_compute. reflexivity.
    + etransitivity; [exact (proj1 (Hl (mkRepo "armory3d/iron" "iron" false)
                                      ltac:(right; now left)))|].
      vm_compute. reflexivity.
Defined.

(** ** Updating, then restoring, the whole SDK *)

Lemma append_nonempty s t : t <> EmptyString -> s +:+ t <> EmptyString.
Proof. destruct s; cbn; [trivial|discriminate]. Qed.

Lemma last_char_append s t :
  t <> EmptyString -> last_char (s +:+ t) = last_char t.
Proof.
  intros Ht. induction s as [|c s IH]; [reflexivity|].
  change (last_char (String c (s +:+ t)) = last_char t).
  pose proof (append_nonempty s t Ht) as Hne.
  cbn [last_char]. destruct (s +:+ t) eqn:E; [contradiction|]. exact IH.
Qed.

Lemma sdk_key_neq ctx sp r :
  In r repos ->
  get_fp ctx +:+ "/armsdk" <> path_of sp r
  /\ get_fp ctx +:+ "/armsdk" <> path_of sp r +:+ "_backup".
Proof.
  intros Hr. split; intros H; apply (f_equal last_char) in H;
    rewrite last_char_append in H by discriminate.
  - unfold path_of in H. rewrite (last_char_append sp) in H by discriminate.
    cbn in Hr. repeat (destruct Hr as [<-|Hr]; [discriminate H|]). contradiction.
  - rewrite (last_char_append (path_of sp r)) in H by discriminate.
    discriminate H.
Qed.

Lemma get_sdk_path_stable ctx w w' sp :
  get_sdk_path ctx w = Ok sp w ->
  fs w' !! (get_fp ctx +:+ "/armsdk") = fs w !! (get_fp ctx +:+ "/armsdk") ->
  get_sdk_path ctx w' = Ok sp w'.
Proof.
  unfold get_sdk_path, bind, os_path_exists, ret. intros H ->.
  destruct (fs w !! (get_fp ctx +:+ "/armsdk")); injection H as <-; reflexivity.
Qed.





(** ** The outcome of a batch *)







(** ** A batch that raises *)

Lemma crashed_stays env p c c' e :
  steps env p c c' -> main c = Crashed e -> main c' = Crashed e.
Proof.
  intros Hs Hc. induction Hs as [c|c1 c2 c3 _ IH H23]; [exact Hc|].
  specialize (IH Hc).
  destruct H23 as [r rs ts w t w' _|r rs ts w e' w' _
                  |m ts1 t wr rest ts2 w _|m ts1 t ts2 w _];
    cbn [main] in *; try discriminate; exact IH.
Qed.

(** X9: when one of the [git_clone] calls raises, the calls after it are
    never made, and no aggregate signal follows: however the waiters of
    the clones started before go on, neither the "completed" line nor
    the "failed" report is ever emitted, and [repos_done] stays below
    nine. *)
Theorem crashed_batch_is_silent env p w c e c' :
  steps env p (batch_start w) c ->
  main c = Crashed e ->
  steps env p c c' ->
  main c' = Crashed e
  /\ n_succeeded (cw c') = n_succeeded w
  /\ n_failed (cw c') = n_failed w
  /\ repos_done (cw c') < 9.
Proof.
  intros Hs Hc Hs'.
  pose proof (crashed_stays env p c c' e Hs' Hc) as Hc'.
  destruct (batch_invariant_steps env p w c' (steps_trans env p _ _ _ Hs Hs'))
    as (_ & Hu & _ & Hd & Hsu & Hfa & _).
  rewrite Hc' in Hd.
  change (n_succeeded (cw c') = (n_succeeded w
            + if (repos_updated (cw c') =? 9)%Z then 1 else 0)%nat) in Hsu.
  change (n_failed (cw c') = (n_failed w
            + if ((repos_done (cw c') =? 9) && negb (repos_updated (cw c') =? 9))%Z
              then 1 else 0)%nat) in Hfa.
  change (0 <= repos_updated (cw c') <= repos_done (cw c')) in Hu.
  change (repos_done (cw c') + Z.of_nat (length (pending c')) < 9) in Hd.
  split; [exact Hc'|]. rewrite Hsu, Hfa.
  split_eqb; cbn [andb negb]; lia.
Qed.

Lemma crashed_batch_is_silent_witness :
  n_succeeded (final_world env_all_cloned "/sdk" w_file_in_the_way) = 0%nat
  /\ n_failed (final_world env_all_cloned "/sdk" w_file_in_the_way) = 0%nat
  /\ repos_done (final_world env_all_cloned "/sdk" w_file_in_the_way) < 9.
Proof.
  destruct (launch_crash_steps env_all_cloned "/sdk" repos []
              (reset_counters w_file_in_the_way) NotADirectoryError
              (final_world env_all_cloned "/sdk" w_file_in_the_way)
              ltac:(vm_compute; reflexivity)) as [ts Hs].
  revert Hs. generalize (final_world env_all_cloned "/sdk" w_file_in_the_way).
  intros wf Hs.
  destruct (crashed_batch_is_silent env_all_cloned "/sdk" w_file_in_the_way
              _ NotADirectoryError _ Hs eq_refl
              (steps_refl env_all_cloned "/sdk" _)) as (_ & H1 & H2 & H3).
  split; [exact H1|]. split; [exact H2|exact H3].
Defined.

(** ** When [git_clone] raises *)





(** ** The panel *)

Lemma draw_sdk_exists_unfold ctx w sp :
  get_sdk_path ctx w = Ok sp w ->
  draw_sdk_exists ctx w
  = Ok (match fs w !! (sp +:+ "/" +:+ "armory") with Some _ => true | None => false end
        || match fs w !! ((sp +:+ "/" +:+ "armory") +:+ "_backup") with
           | Some _ => true | None => false end) w.
Proof.
  intros H. unfold draw_sdk_exists, bind. rewrite H.
  unfold os_path_exists, ret. rewrite <- (restore_backup_path sp "armory").
  reflexivity.
Qed.

Lemma prepare_fs_exists pf path f :
  (match prepare_fs pf path f !! path with Some _ => true | None => false end
   || match prepare_fs pf path f !! (path +:+ "_backup") with
      | Some _ => true | None => false end)
  = (match f !! path with Some _ => true | None => false end
     || match f !! (path +:+ "_backup") with Some _ => true | None => false end).
Proof.
  rewrite prepare_fs_backup. unfold prepare_fs.
  destruct (f !! path) as [t|] eqn:Hp;
    destruct (f !! (path +:+ "_backup")) as [b|] eqn:Hb;
    rewrite ?Hp; cbn [orb]; try reflexivity.
  - now rewrite orb_true_r.
  - now rewrite orb_true_r.
Qed.

Lemma restore_fs_exists pf path f :
  (match restore_fs pf path f !! path with Some _ => true | None => false end
   || match restore_fs pf path f !! (path +:+ "_backup") with
      | Some _ => true | None => false end)
  = (match f !! path with Some _ => true | None => false end
     || match f !! (path +:+ "_backup") with Some _ => true | None => false end).
Proof.
  unfold restore_fs.
  destruct (f !! (path +:+ "_backup")) as [b|] eqn:Hb; [|now rewrite Hb].
  destruct (f !! path) as [t|] eqn:Hp.
  - destruct (removable pf t) eqn:Hr.
    + rewrite lookup_insert_eq. reflexivity.
    + destruct (after_rmtree_stuck pf path f t Hp Hr) as [n' ->].
      rewrite lookup_insert_eq. reflexivity.
  - rewrite lookup_insert_eq. reflexivity.
Qed.

Lemma sdk_key_neq_armory ctx sp :
  get_fp ctx +:+ "/armsdk" <> sp +:+ "/" +:+ "armory"
  /\ get_fp ctx +:+ "/armsdk" <> (sp +:+ "/" +:+ "armory") +:+ "_backup".
Proof. apply (sdk_key_neq ctx sp armory). now left. Qed.

(** X11: what the panel finds is not changed by an update or a restore
    of the [armory] repository.  [draw] looks for [armory] or
    [armory_backup] in the SDK directory; [git_clone] for [armory],
    before its process has written anything and even if it raises, and
    [restore_repo] for [armory] leave the answer, and with it the
    operator offered, as it was. *)
Theorem draw_sdk_exists_stable env g rec ctx w sp :
  get_sdk_path ctx w = Ok sp w ->
  let w1 := world_of (git_clone env (Some done) sp g "armory" rec w) in
  let w2 := world_of (restore_repo sp "armory" w) in
  exists b,
    draw_sdk_exists ctx w = Ok b w
    /\ draw_sdk_exists ctx w1 = Ok b w1
    /\ draw_sdk_exists ctx w2 = Ok b w2
    /\ draw_operator ctx w = Ok (if b then "arm_addon.update" else "arm_addon.install") w
    /\ draw_operator ctx w1 = Ok (if b then "arm_addon.update" else "arm_addon.install") w1
    /\ draw_operator ctx w2 = Ok (if b then "arm_addon.update" else "arm_addon.install") w2.
Proof.
  intros Hsp w1 w2.
  destruct (sdk_key_neq_armory ctx sp) as [Hk1 Hk2].
  pose proof (draw_sdk_exists_unfold ctx w sp Hsp) as H0.
  set (b := (match fs w !! (sp +:+ "/" +:+ "armory") with
             | Some _ => true | None => false end
             || match fs w !! ((sp +:+ "/" +:+ "armory") +:+ "_backup") with
                | Some _ => true | None => false end)) in *.
  assert (H1 : get_sdk_path ctx w1 = Ok sp w1).
  { apply (get_sdk_path_stable ctx w w1 sp Hsp). unfold w1.
    rewrite git_clone_fs. now apply prepare_fs_other. }
  assert (H2 : get_sdk_path ctx w2 = Ok sp w2).
  { apply (get_sdk_path_stable ctx w w2 sp Hsp). unfold w2.
    rewrite restore_repo_fs. now apply restore_fs_other. }
  assert (E1 : draw_sdk_exists ctx w1 = Ok b w1).
  { rewrite (draw_sdk_exists_unfold ctx w1 sp H1). unfold w1 at 1 2.
    rewrite git_clone_fs. now rewrite prepare_fs_exists. }
  assert (E2 : draw_sdk_exists ctx w2 = Ok b w2).
  { rewrite (draw_sdk_exists_unfold ctx w2 sp H2). unfold w2 at 1 2.
    rewrite restore_repo_fs. now rewrite restore_fs_exists. }
  exists b. split; [exact H0|]. split; [exact E1|]. split; [exact E2|].
  unfold draw_operator, bind. rewrite H0, E1, E2. now repeat split.
Qed.

Lemma draw_sdk_exists_stable_witness :
  draw_operator ctx_sdk w_sdk_root = Ok "arm_addon.update" w_sdk_root
  /\ draw_sdk_exists ctx_sdk
       (world_of (restore_repo "/sdk" "armory" w_sdk_root))
     = Ok true (world_of (restore_repo "/sdk" "armory" w_sdk_root)).
Proof.
  destruct (draw_sdk_exists_stable env_all_cloned "armory3d/armory" false
              ctx_sdk w_sdk_root "/sdk" eq_refl)
    as (b & H0 & _ & H2 & Ho & _).
  assert (Hb : b = true).
  { assert (E : draw_sdk_exists ctx_sdk w_sdk_root = Ok true w_sdk_root)
      by reflexivity.
    rewrite E in H0. now injection H0. }
  subst b. split; [exact Ho|exact H2].
Defined.

(** ** The three answers of [git_test] *)

(** X12: [git_test] returns [True] exactly when [git --version] could be
    run, its output is valid UTF-8, and the decoded text starts with
    [git version ] followed by digits, any character but a newline,
    digits, any character but a newline, and digits.  It raises exactly
    when the output is not valid UTF-8, and returns [False] in every
    other case. *)
Theorem git_test_outcomes env w :
  ((exists w', git_test env w = Ok true w')
   <-> exists output d1 c1 d2 c2 d3 rest,
         git_version env = ProbeOutput output
         /\ decode output
            = Some (code_points "git version "
                    ++ d1 ++ c1 :: d2 ++ c2 :: d3 ++ rest)%list
         /\ d1 <> [] /\ d2 <> [] /\ d3 <> []
         /\ forallb (in_charset digit) d1 = true
         /\ forallb (in_charset digit) d2 = true
         /\ forallb (in_charset digit) d3 = true
         /\ c1 <> 10%N /\ c2 <> 10%N)
  /\ ((exists e w', git_test env w = Raise e w')
      <-> exists output, git_version env = ProbeOutput output
                         /\ decode output = None)
  /\ (forall e w', git_test env w = Raise e w' -> e = UnicodeDecodeError).
Proof.
  unfold git_test, bind, act, ret, raise.
  destruct (git_version env) as [msg|output].
  - split; [|split].
    + split; [intros (w' & H); discriminate|].
      intros (o & d1 & c1 & d2 & c2 & d3 & rest & H & _). discriminate.
    + split; [intros (e & w' & H); discriminate|].
      intros (o & H & _). discriminate.
    + intros e w' H. discriminate.
  - destruct (decode output) as [s|] eqn:Hd.
    + destruct (re_match git_version_re s) eqn:Hm.
      * split; [|split].
        -- split.
           ++ intros _. apply git_version_re_accepts in Hm
                as (d1 & c1 & d2 & c2 & d3 & rest & -> & H).
              exists output, d1, c1, d2, c2, d3, rest.
              split; [reflexivity|]. split; [exact Hd|exact H].
           ++ intros _. eexists. reflexivity.
        -- split; [intros (e & w' & H); discriminate|].
           intros (o & [= <-] & H). congruence.
        -- intros e w' H. discriminate.
      * split; [|split].
        -- split; [intros (w' & H); discriminate|].
           intros (o & d1 & c1 & d2 & c2 & d3 & rest & [= <-] & Hs & H).
           assert (Ht : re_match git_version_re s = true).
           { apply git_version_re_accepts.
             exists d1, c1, d2, c2, d3, rest. split; [congruence|exact H]. }
           congruence.
        -- split; [intros (e & w' & H); discriminate|].
           intros (o & [= <-] & H). congruence.
        -- intros e w' H. discriminate.
    + split; [|split].
      * split; [intros (w' & H); discriminate|].
        intros (o & d1 & c1 & d2 & c2 & d3 & rest & [= <-] & Hs & _). congruence.
      * split; [intros _; now exists output|].
        intros _. eexists _, _. reflexivity.
      * intros e w' [= <- _]. reflexivity.
Qed.

(** ** Output of [git --version] that cannot be decoded *)

(** X13: when [git --version] runs but its output is not valid UTF-8,
    the probe neither fails nor succeeds: the exception of [decode]
    leaves [git_test] and [download_sdk].  By then the SDK directory
    exists and is the working directory; no clone command was handed to
    [Popen] and no error was reported. *)
Theorem download_sdk_undecodable env ctx w sp output :
  get_sdk_path ctx w = Ok sp w ->
  sp <> EmptyString ->
  no_file_at (fs w) sp ->
  git_version env = ProbeOutput output ->
  decode output = None ->
  (exists w',
     download_sdk env ctx w = Raise UnicodeDecodeError w'
     /\ is_Some (fs w' !! sp)
     /\ cwd w' = sp
     /\ popen_attempts (trace w') = popen_attempts (trace w)
     /\ forall msg, occurrences (EvReport ERROR msg) (trace w')
                    = occurrences (EvReport ERROR msg) (trace w))
  /\ ~ probe_fails env /\ ~ probe_succeeds env.
Proof.
  intros Hsp Hne Hdir Hv Hd. split; [|split].
  - exact (download_sdk_undecodable_raise env ctx w sp output Hsp Hne Hdir Hv Hd).
  - unfold probe_fails. rewrite Hv. intros (s & H & _). congruence.
  - intros (o & s & H & H' & _). congruence.
Qed.

Lemma download_sdk_undecodable_witness :
  exists w',
    download_sdk env_undecodable ctx_sdk w_empty = Raise UnicodeDecodeError w'
    /\ is_Some (fs w' !! "/sdk")
    /\ cwd w' = "/sdk"
    /\ popen_attempts (trace w') = popen_attempts (trace w_empty)
    /\ forall msg, occurrences (EvReport ERROR msg) (trace w')
                   = occurrences (EvReport ERROR msg) (trace w_empty).
Proof.
  refine (proj1 (download_sdk_undecodable env_undecodable ctx_sdk w_empty
                   "/sdk" [Byte.xff] _ _ _ _ _)).
  - reflexivity.
  - discriminate.
  - intros ro d. vm_compute. discriminate.
  - reflexivity.
  - reflexivity.
Defined.

(** ** The install and update operators *)

(** X14: the install and the update operator are the same operation, and
    both tell Blender [FINISHED] when [download_sdk] has given up: with
    no SDK path configured, and with a failing git test, [download_sdk]
    returns [CANCELLED] and starts no thread, and [execute] returns
    [FINISHED] in the world [download_sdk] left. *)
Theorem operators_finish_when_cancelled env ctx w sp :
  get_sdk_path ctx w = Ok sp w ->
  sp = EmptyString \/ (no_file_at (fs w) sp /\ probe_fails env) ->
  exists w',
    download_sdk env ctx w = Ok (Some CANCELLED, []) w'
    /\ install_execute env ctx w = Ok (FINISHED, []) w'
    /\ update_execute env ctx w = Ok (FINISHED, []) w'.
Proof.
  intros Hsp H.
  assert (Hd : exists w', download_sdk env ctx w = Ok (Some CANCELLED, []) w').
  { destruct (String.eqb_spec sp EmptyString) as [->|Hne].
    - eexists. now apply download_sdk_no_path.
    - destruct H as [H|[Hdir Hfail]]; [contradiction|].
      rewrite (download_sdk_unfold env ctx w sp Hsp Hne Hdir).
      rewrite (git_test_fails env _ Hfail). eexists. reflexivity. }
  destruct Hd as (w' & Hd). exists w'. split; [exact Hd|].
  unfold install_execute, update_execute, bind. rewrite Hd. now split.
Qed.

Lemma operators_finish_when_cancelled_witness :
  exists w',
    download_sdk env_no_git ctx_sdk w_empty = Ok (Some CANCELLED, []) w'
    /\ install_execute env_no_git ctx_sdk w_empty = Ok (FINISHED, []) w'
    /\ update_execute env_no_git ctx_sdk w_empty = Ok (FINISHED, []) w'.
Proof.
  apply (operators_finish_when_cancelled env_no_git ctx_sdk w_empty "/sdk").
  - reflexivity.
  - right. split; [intros ro d; vm_compute; discriminate|exact I].
Defined.

(** ** [get_fp] *)

Lemma concat_cons_char sep c h l :
  String.concat sep (String c h :: l) = String c (String.concat sep (h :: l)).
Proof. destruct l; reflexivity. Qed.

Lemma removelast_cons {A} (a : A) l : l <> [] -> removelast (a :: l) = a :: removelast l.
Proof. destruct l; [contradiction|reflexivity]. Qed.

Lemma split_cases sep s :
  if has_sep sep s
  then exists h t base,
         split sep s = h :: t /\ t <> [] /\ has_sep sep base = false
         /\ s = String.concat (String sep EmptyString) (h :: removelast t)
                +:+ String sep base
  else split sep s = [s].
Proof.
  induction s as [|c s IH].
  - reflexivity.
  - change (has_sep sep (String c s)) with (Ascii.eqb c sep || has_sep sep s).
    cbn [split]. destruct (Ascii.eqb c sep) eqn:E; cbn [orb].
    + apply Ascii.eqb_eq in E as ->.
      destruct (has_sep sep s) eqn:Hs.
      * destruct IH as (h & t & base & -> & Ht & Hb & Hc).
        exists EmptyString, (h :: t), base.
        split; [reflexivity|]. split; [discriminate|]. split; [exact Hb|].
        rewrite (removelast_cons h t Ht).
        change (String sep s
                = String sep (String.concat (String sep EmptyString)
                                (h :: removelast t) +:+ String sep base)).
        now rewrite <- Hc.
      * rewrite IH. exists EmptyString, [s], s.
        split; [reflexivity|]. split; [discriminate|]. split; [exact Hs|].
        reflexivity.
    + destruct (has_sep sep s) eqn:Hs.
      * destruct IH as (h & t & base & -> & Ht & Hb & Hc).
        exists (String c h), t, base.
        split; [reflexivity|]. split; [exact Ht|]. split; [exact Hb|].
        rewrite concat_cons_char.
        change (String c s
                = String c (String.concat (String sep EmptyString)
                              (h :: removelast t) +:+ String sep base)).
        now rewrite <- Hc.
      * now rewrite IH.
Qed.

(** X15: [get_fp] is the directory part of the path of the blend file.
    When the path contains the separator, it is [get_fp], the separator
    and a last component without separator; when it does not, an unsaved
    file included, [get_fp] is empty. *)
Theorem get_fp_dirname ctx :
  if has_sep (os_path_sep ctx) (filepath ctx)
  then exists base,
         has_sep (os_path_sep ctx) base = false
         /\ filepath ctx = get_fp ctx +:+ String (os_path_sep ctx) base
  else get_fp ctx = EmptyString.
Proof.
  unfold get_fp. pose proof (split_cases (os_path_sep ctx) (filepath ctx)) as H.
  destruct (String.eqb_spec (filepath ctx) EmptyString) as [E|E].
  - rewrite E. reflexivity.
  - destruct (has_sep (os_path_sep ctx) (filepath ctx)).
    + destruct H as (h & t & base & Hs & Ht & Hb & Hc).
      exists base. split; [exact Hb|].
      cbv zeta. rewrite Hs, (removelast_cons h t Ht). exact Hc.
    + cbv zeta. rewrite H. reflexivity.
Qed.

(** ** The repositories restored and the repositories cloned *)

(** X16: the restore operator goes through exactly the repositories that
    [download_sdk] clones, each of them once, though not in the same
    order; so every backup an update can leave is one that a restore
    looks for. *)
Theorem restore_covers_clones :
  Permutation restore_names (map n repos)
  /\ List.NoDup restore_names
  /\ restore_names <> map n repos.
Proof.
  split; [|split].
  - apply Permutation.NoDup_Permutation;
      [exact NoDup_restore_names|exact NoDup_repos|exact restore_names_repos].
  - exact NoDup_restore_names.
  - discriminate.
Qed.
